(** * input_fsm: the transition engine of [FSMEntity]

    A shallow embedding of [custom_components/input_fsm/fsm_entity.py]
    (and of the configuration checks of [__init__.py]) together with the
    properties of the engine: transition resolution, guard evaluation,
    commit, timeout arming and firing, [set_state]/[reset], hot reload. *)

From Stdlib Require Import QArith Ascii String.
From stdpp Require Import gmap strings list sorting.

(** ** const.py *)

Definition EVENT_TRANSITION_STARTED : string := "input_fsm.transition_started".
Definition EVENT_TRANSITION_SUCCEEDED : string :=
  "input_fsm.transition_succeeded".
Definition EVENT_TRANSITION_FAILED : string := "input_fsm.transition_failed".
Definition WILDCARD : string := "*".

(** ** Configuration records

    Both call sites of [FSMEntity(...)] and of [async_apply_config] pass
    configuration that went through [FSM_CONFIG_SCHEMA]; the records below
    are the shapes that schema produces ([Required] keys are fields,
    [Optional] keys without default are [option]s). *)

(** [STATE_SCHEMA] *)
Record StateDef := {
  name : string;
  description : string
}.

(** [TIMEOUT_SCHEMA]; [seconds] is a Python float, of which only the
    comparison with zero is used: it is a rational here. *)
Record TimeoutCfg := {
  seconds : Q;
  timeout_dest : string
}.

(** [ACTION_SCHEMA] *)
Record Action := {
  service : string;
  data : list (string * string)
}.

(** [TRANSITION_SCHEMA] *)
Record Transition := {
  trigger : string;
  source : string;
  dest : string;
  guard_expr : option string;
  timeout : option TimeoutCfg;
  actions : list Action
}.

(** The argument of [async_apply_config]: a dict read with
    [cfg.get(key, default)], so every key may be absent. *)
Record Config := {
  cfg_initial : option string;
  cfg_states : option (list StateDef);
  cfg_transitions : option (list Transition)
}.

(** ** Values that leave the engine *)

(** One element of the list returned by [_run_actions]. *)
Record ActionStatus := {
  as_service : string;
  as_ok : bool;
  as_error : option string
}.

(** Values of an event payload. *)
Inductive value :=
| VNone
| VStr (s : string)
| VStatus (l : list ActionStatus).

Record Event := {
  event_type : string;
  event_data : list (string * value)
}.

(** An entry of [_recent]; only [async_trigger] records a [transition_id]. *)
Record HistoryEntry := {
  h_transition_id : option string;
  h_trigger : string;
  h_from : string;
  h_to : string
}.

(** ** The entity and its host *)

Record FSMEntity := {
  entity_id : option string;
  _object_id : string;
  _initial : string;
  _state : string;
  _transitions : list Transition;
  _state_definitions : list StateDef;
  _state_lookup : gmap string StateDef;
  _timeout_unsub : option nat;
  _recent : list HistoryEntry
}.

(** A registration made by [async_call_later] that has neither fired nor
    been cancelled; [target] is the [dest] captured by the closure [_cb]. *)
Record Timer := {
  handle : nat;
  delay : Q;
  target : string
}.

(** The part of the host the engine writes to: the scheduler's live timers,
    the [_timeout_transition(dest)] tasks created by [_cb] that have not
    yet acquired the lock, the event bus (oldest first) and the state last
    written by [async_write_ha_state]. *)
Record HomeAssistant := {
  timers : list Timer;
  next_handle : nat;
  tasks : list string;
  bus : list Event;
  ha_state : option string
}.

Record Sys := {
  self : FSMEntity;
  hass : HomeAssistant
}.

(** The result of [Template(expr, hass).async_render(parse_result=False)]. *)
Inductive RenderResult :=
| Rendered (s : string)
| RenderError (msg : string).

(** The part of the host the engine only calls: the template engine and
    the service registry ([async_call] answers [Some msg] when it raises). *)
Record Host := {
  async_render : string → RenderResult;
  async_call : string → string → list (string * string) → option string
}.

(** ** Python built-ins used by the engine

    Strings are byte strings; [strip] and [lower] are [str.strip] and
    [str.lower] on the ASCII range. *)

(** [str.isspace] on ASCII: TAB..CR, FS..US and the space. *)
Definition isspace (c : ascii) : bool :=
  let n := nat_of_ascii c in
  (Nat.leb 9 n && Nat.leb n 13) || (Nat.leb 28 n && Nat.leb n 32).

Definition lower_ascii (c : ascii) : ascii :=
  let n := nat_of_ascii c in
  if Nat.leb 65 n && Nat.leb n 90 then ascii_of_nat (n + 32) else c.

Fixpoint lstrip (s : string) : string :=
  match s with
  | String c s' => if isspace c then lstrip s' else s
  | EmptyString => EmptyString
  end.

Definition rstrip (s : string) : string := String.rev (lstrip (String.rev s)).

Definition strip (s : string) : string := rstrip (lstrip s).

Fixpoint lower (s : string) : string :=
  match s with
  | String c s' => String (lower_ascii c) (lower s')
  | EmptyString => EmptyString
  end.

(** [s.split(".", 1)]: the text before the first dot and the text after it,
    [None] when [s] has no dot (the case ["." not in s]). *)
Fixpoint split_dot (s : string) : option (string * string) :=
  match s with
  | EmptyString => None
  | String c s' =>
      if Ascii.eqb c "."%char then Some (EmptyString, s')
      else match split_dot s' with
           | Some (d, r) => Some (String c d, r)
           | None => None
           end
  end.

(** [sorted({...})]: insertion into a strictly increasing list. *)
Fixpoint insert_sorted (x : string) (l : list string) : list string :=
  match l with
  | [] => [x]
  | y :: l' =>
      match String.compare x y with
      | Lt => x :: l
      | Eq => l
      | Gt => y :: insert_sorted x l'
      end
  end.

Definition sorted_set (l : list string) : list string :=
  foldr insert_sorted [] l.

(** [d.update(other)] on a dict kept in insertion order. *)
Fixpoint dict_set (k : string) (v : value) (d : list (string * value))
  : list (string * value) :=
  match d with
  | [] => [(k, v)]
  | (k', v') :: d' =>
      if String.eqb k' k then (k', v) :: d' else (k', v') :: dict_set k v d'
  end.

Definition dict_update (d other : list (string * value))
  : list (string * value) :=
  foldl (λ acc kv, dict_set kv.1 kv.2 acc) d other.

Definition is_none (v : value) : bool :=
  match v with VNone => true | _ => false end.

(** [l[-10:]] *)
Definition last10 {A} (l : list A) : list A := drop (length l - 10) l.

(** [{s.get("name"): s for s in states}]: a later definition of a name
    replaces an earlier one. *)
Definition state_lookup_of (states : list StateDef) : gmap string StateDef :=
  foldl (λ m s, <[name s := s]> m) ∅ states.

(** [key in self._state_lookup] *)
Definition declared (lookup : gmap string StateDef) (key : string) : bool :=
  bool_decide (is_Some (lookup !! key)).

(** [seconds > 0] *)
Definition positive_seconds (s : Q) : bool := negb (Qle_bool s 0).

(** [str(b)] for a Python bool. *)
Definition str_bool (b : bool) : string := if b then "True" else "False".

(** ** Field updates *)

Definition with_state (v : string) (e : FSMEntity) : FSMEntity :=
  {| entity_id := entity_id e; _object_id := _object_id e;
     _initial := _initial e; _state := v; _transitions := _transitions e;
     _state_definitions := _state_definitions e;
     _state_lookup := _state_lookup e;
     _timeout_unsub := _timeout_unsub e; _recent := _recent e |}.

Definition with_timeout_unsub (v : option nat) (e : FSMEntity) : FSMEntity :=
  {| entity_id := entity_id e; _object_id := _object_id e;
     _initial := _initial e; _state := _state e;
     _transitions := _transitions e;
     _state_definitions := _state_definitions e;
     _state_lookup := _state_lookup e;
     _timeout_unsub := v; _recent := _recent e |}.

Definition with_recent (v : list HistoryEntry) (e : FSMEntity) : FSMEntity :=
  {| entity_id := entity_id e; _object_id := _object_id e;
     _initial := _initial e; _state := _state e;
     _transitions := _transitions e;
     _state_definitions := _state_definitions e;
     _state_lookup := _state_lookup e;
     _timeout_unsub := _timeout_unsub e; _recent := v |}.

Definition with_entity_id (v : option string) (e : FSMEntity) : FSMEntity :=
  {| entity_id := v; _object_id := _object_id e;
     _initial := _initial e; _state := _state e;
     _transitions := _transitions e;
     _state_definitions := _state_definitions e;
     _state_lookup := _state_lookup e;
     _timeout_unsub := _timeout_unsub e; _recent := _recent e |}.

Definition with_config (i : string) (sd : list StateDef) (ts : list Transition)
    (e : FSMEntity) : FSMEntity :=
  {| entity_id := entity_id e; _object_id := _object_id e;
     _initial := i; _state := _state e; _transitions := ts;
     _state_definitions := sd; _state_lookup := state_lookup_of sd;
     _timeout_unsub := _timeout_unsub e; _recent := _recent e |}.

Definition with_timers (v : list Timer) (n : nat) (h : HomeAssistant)
  : HomeAssistant :=
  {| timers := v; next_handle := n; tasks := tasks h; bus := bus h;
     ha_state := ha_state h |}.

Definition with_tasks (v : list string) (h : HomeAssistant) : HomeAssistant :=
  {| timers := timers h; next_handle := next_handle h; tasks := v;
     bus := bus h; ha_state := ha_state h |}.

Definition with_bus (v : list Event) (h : HomeAssistant) : HomeAssistant :=
  {| timers := timers h; next_handle := next_handle h; tasks := tasks h;
     bus := v; ha_state := ha_state h |}.

Definition with_ha_state (v : option string) (h : HomeAssistant)
  : HomeAssistant :=
  {| timers := timers h; next_handle := next_handle h; tasks := tasks h;
     bus := bus h; ha_state := v |}.

(** ** A state monad over the entity and its host *)

Definition M (A : Type) : Type := Sys → A * Sys.

#[global] Instance M_ret : MRet M := λ A a s, (a, s).

#[global] Instance M_bind : MBind M :=
  λ A B k m s, k (m s).1 (m s).2.

Definition gets {A} (f : FSMEntity → A) : M A := λ s, (f (self s), s).

Definition modify_self (f : FSMEntity → FSMEntity) : M unit :=
  λ s, (tt, {| self := f (self s); hass := hass s |}).

Definition modify_hass (f : HomeAssistant → HomeAssistant) : M unit :=
  λ s, (tt, {| self := self s; hass := f (hass s) |}).

(** [hass.bus.async_fire(event_type, payload)] *)
Definition bus_async_fire (ev : Event) : M unit :=
  modify_hass (λ h, with_bus (bus h ++ [ev]) h).

(** [self.async_write_ha_state()] *)
Definition async_write_ha_state : M unit :=
  λ s, (tt, {| self := self s;
               hass := with_ha_state (Some (_state (self s))) (hass s) |}).

(** [async_call_later(hass, seconds, _cb)] where [_cb] captured [dest]: a
    fresh handle stands for the returned unsubscribe function. *)
Definition async_call_later (secs : Q) (d : string) : M nat :=
  λ s, let h := next_handle (hass s) in
       (h, {| self := self s;
              hass := with_timers
                        (timers (hass s) ++
                           [{| handle := h; delay := secs; target := d |}])
                        (S h) (hass s) |}).

(** Calling the unsubscribe function: the timer, if still registered, is
    removed; nothing happens when it already fired or was cancelled. *)
Definition unsub (h : nat) : M unit :=
  modify_hass (λ hs,
    with_timers (filter (λ t, handle t ≠ h) (timers hs)) (next_handle hs) hs).

(** ** fsm_entity.py *)

(** [FSMEntity.__init__]; the platform assigns [entity_id] later. *)
Definition __init__ (object_id initial_state : string)
    (states : list StateDef) (transitions : list Transition) : FSMEntity :=
  {| entity_id := None; _object_id := object_id;
     _initial := initial_state; _state := initial_state;
     _transitions := transitions; _state_definitions := states;
     _state_lookup := state_lookup_of states;
     _timeout_unsub := None; _recent := [] |}.

(** The loop of [async_trigger] that selects [matching]: the first
    transition, in list order, with the requested trigger and with the
    current state or the wildcard as source. *)
Fixpoint matching (ts : list Transition) (state trig : string)
  : option Transition :=
  match ts with
  | [] => None
  | t :: ts' =>
      if String.eqb (trigger t) trig
         && (String.eqb (source t) state || String.eqb (source t) WILDCARD)
      then Some t
      else matching ts' state trig
  end.

(** [extra_state_attributes] *)
Record Attributes := {
  current_state_description : string;
  available_states : list string;
  available_triggers : list string;
  available_transitions : list Transition;
  recent_transitions : list HistoryEntry
}.

Definition extra_state_attributes (e : FSMEntity) : Attributes :=
  {| current_state_description :=
       from_option description "" (_state_lookup e !! _state e);
     available_states := name <$> _state_definitions e;
     available_triggers :=
       sorted_set
         (trigger <$>
            filter (λ t, source t = _state e ∨ source t = WILDCARD)
                   (_transitions e));
     available_transitions := _transitions e;
     recent_transitions := last10 (_recent e) |}.

(** [_fire_event]: the entries of [data] whose value is [None] are
    dropped ([self.hass] is never falsy). *)
Definition event_payload (eid : option string) (data : list (string * value))
  : list (string * value) :=
  let payload := [("entity_id", from_option VStr VNone eid)] in
  dict_update payload (List.filter (λ kv, negb (is_none kv.2)) data).

Definition _fire_event (kind : string) (data : list (string * value))
  : M unit :=
  eid ← gets entity_id;
  bus_async_fire
    {| event_type := kind; event_data := event_payload eid data |}.

Definition _cancel_timeout : M unit :=
  u ← gets _timeout_unsub;
  match u with
  | Some h => unsub h;; modify_self (with_timeout_unsub None)
  | None => mret tt
  end.

Definition _schedule_timeout (secs : Q) (d : string) : M unit :=
  h ← async_call_later secs d;
  modify_self (with_timeout_unsub (Some h)).

Definition _timeout_transition (d : string) : M unit :=
  prev ← gets _state;
  modify_self (with_state d);;
  async_write_ha_state;;
  modify_self (λ e, with_recent
    (_recent e ++ [{| h_transition_id := None; h_trigger := "timeout";
                      h_from := prev; h_to := d |}]) e);;
  modify_self (with_timeout_unsub None).

Definition async_set_state (state : string) : M bool :=
  lookup ← gets _state_lookup;
  if negb (declared lookup state) then mret false
  else
    prev ← gets _state;
    modify_self (with_state state);;
    async_write_ha_state;;
    _cancel_timeout;;
    modify_self (λ e, with_recent
      (_recent e ++ [{| h_transition_id := None; h_trigger := "set_state";
                        h_from := prev; h_to := state |}]) e);;
    mret true.

Definition async_reset : M unit :=
  initial ← gets _initial;
  async_set_state initial;;
  mret tt.

(** [async_added_to_hass]; [last] is the state the restore collaborator
    remembers, if any. *)
Definition async_added_to_hass (last : option string) : M unit :=
  lookup ← gets _state_lookup;
  match last with
  | Some st =>
      if negb (bool_decide (st = "")) && declared lookup st
      then modify_self (with_state st)
      else mret tt
  | None => mret tt
  end;;
  async_write_ha_state.

Definition async_apply_config (cfg : Config) : M unit :=
  _cancel_timeout;;
  old_state ← gets _state;
  modify_self (λ e,
    with_config (default (_initial e) (cfg_initial cfg))
                (default (_state_definitions e) (cfg_states cfg))
                (default (_transitions e) (cfg_transitions cfg)) e);;
  lookup ← gets _state_lookup;
  initial ← gets _initial;
  (if negb (declared lookup old_state)
   then modify_self (with_state initial)
   else mret tt);;
  async_write_ha_state.

Section Engine.

Variable host : Host.

(** [_eval_guard]: whatever the template raises is caught. *)
Definition _eval_guard (expr : string) : bool :=
  match async_render host expr with
  | Rendered rendered =>
      let val := lower (strip rendered) in
      bool_decide (val ∈ ["1"; "true"; "yes"; "on"])
  | RenderError _ => false
  end.

(** One round of the loop of [_run_actions]. *)
Definition run_action (act : Action) : ActionStatus :=
  let svc := service act in
  match split_dot svc with
  | None =>
      {| as_service := svc; as_ok := false; as_error := Some "bad_service" |}
  | Some (domain, srv) =>
      match async_call host domain srv (data act) with
      | None => {| as_service := svc; as_ok := true; as_error := None |}
      | Some e => {| as_service := svc; as_ok := false; as_error := Some e |}
      end
  end.

Definition _run_actions (acts : list Action) : list ActionStatus :=
  run_action <$> acts.

(** [async_trigger]; [transition_id] is the fresh [uuid4]. *)
Definition async_trigger (trig transition_id : string) : M bool :=
  ts ← gets _transitions;
  state ← gets _state;
  match matching ts state trig with
  | None =>
      _fire_event EVENT_TRANSITION_FAILED
        [("transition_id", VStr transition_id);
         ("reason", VStr "no_matching_transition");
         ("trigger", VStr trig);
         ("from", VStr state)];;
      mret false
  | Some t =>
      let guard_value := _eval_guard <$> guard_expr t in
      if bool_decide (guard_value = Some false) then
        _fire_event EVENT_TRANSITION_FAILED
          [("transition_id", VStr transition_id);
           ("reason", VStr "guard_false");
           ("trigger", VStr trig);
           ("from", VStr state);
           ("guard_value", VStr (str_bool false))];;
        mret false
      else
        _fire_event EVENT_TRANSITION_STARTED
          [("transition_id", VStr transition_id);
           ("trigger", VStr trig);
           ("from", VStr state);
           ("to", VStr (dest t));
           ("guard_value",
            from_option (λ b, VStr (str_bool b)) VNone guard_value)];;
        prev ← gets _state;
        modify_self (with_state (dest t));;
        async_write_ha_state;;
        _cancel_timeout;;
        lookup ← gets _state_lookup;
        match timeout t with
        | Some timeout_cfg =>
            if positive_seconds (seconds timeout_cfg)
               && declared lookup (timeout_dest timeout_cfg)
            then _schedule_timeout (seconds timeout_cfg)
                                   (timeout_dest timeout_cfg)
            else mret tt
        | None => mret tt
        end;;
        let actions_status := _run_actions (actions t) in
        modify_self (λ e, with_recent
          (_recent e ++ [{| h_transition_id := Some transition_id;
                            h_trigger := trig;
                            h_from := prev; h_to := dest t |}]) e);;
        _fire_event EVENT_TRANSITION_SUCCEEDED
          [("transition_id", VStr transition_id);
           ("trigger", VStr trig);
           ("from", VStr prev);
           ("to", VStr (dest t));
           ("actions_status", VStatus actions_status)];;
        mret true
  end.

End Engine.

(** ** __init__.py: what the loader logs *)

Inductive Issue :=
| UnknownInitial (initial : string)
| DuplicateTransition (src trig : string)
| InvalidSource (t : Transition)
| InvalidDest (t : Transition).

Definition _state_names (states : list StateDef) : gset string :=
  list_to_set (name <$> states).

(** The loop of [_log_transition_issues], [seen] being the set of the
    [(source, trigger)] pairs met so far. *)
Fixpoint log_loop (names : gset string) (seen : gset (string * string))
    (transitions : list Transition) : list Issue :=
  match transitions with
  | [] => []
  | t :: rest =>
      let pair := (source t, trigger t) in
      (if decide (pair ∈ seen)
       then [DuplicateTransition (source t) (trigger t)] else [])
      ++ (if negb (String.eqb (source t) WILDCARD)
             && negb (bool_decide (source t ∈ names))
          then [InvalidSource t] else [])
      ++ (if bool_decide (dest t ∈ names) then [] else [InvalidDest t])
      ++ log_loop names (seen ∪ {[pair]}) rest
  end.

Definition _log_transition_issues (states : list StateDef)
    (transitions : list Transition) : list Issue :=
  log_loop (_state_names states) ∅ transitions.

(** What [async_setup] logs for one entity before constructing it. *)
Definition async_setup_issues (initial : string) (states : list StateDef)
    (transitions : list Transition) : list Issue :=
  (if bool_decide (initial ∈ _state_names states) then []
   else [UnknownInitial initial])
  ++ _log_transition_issues states transitions.

(** ** The scheduler and the operations of a run *)

(** The delay of timer [h] elapses and the scheduler calls its [_cb], which
    creates the task [_timeout_transition(dest)]; the task has not run yet.
    Nothing happens when [h] is not registered (fired already, cancelled). *)
Definition timer_elapses (h : nat) : M unit :=
  λ s, match filter (λ t, handle t = h) (timers (hass s)) with
       | t :: _ =>
           (unsub h;;
            modify_hass (λ hs, with_tasks (tasks hs ++ [target t]) hs)) s
       | [] => (tt, s)
       end.

(** The oldest waiting [_timeout_transition] task acquires the lock. *)
Definition task_runs : M unit :=
  λ s, match tasks (hass s) with
       | d :: rest =>
           (modify_hass (with_tasks rest);; _timeout_transition d) s
       | [] => (tt, s)
       end.

(** What can happen to an entity, in the order in which the lock is
    acquired; every method body runs under [self._lock]. *)
Inductive Op :=
| Trigger (trig transition_id : string)
| SetState (state : string)
| Reset
| ApplyConfig (cfg : Config)
| AddedToHass (eid : string) (last : option string)
| TimerElapses (h : nat)
| TaskRuns.

Definition exec (host : Host) (o : Op) (s : Sys) : Sys :=
  match o with
  | Trigger trig tid => (async_trigger host trig tid s).2
  | SetState state => (async_set_state state s).2
  | Reset => (async_reset s).2
  | ApplyConfig cfg => (async_apply_config cfg s).2
  | AddedToHass eid last =>
      ((modify_self (with_entity_id (Some eid));;
        async_added_to_hass last) s).2
  | TimerElapses h => (timer_elapses h s).2
  | TaskRuns => (task_runs s).2
  end.

Definition run (host : Host) (ops : list Op) (s : Sys) : Sys :=
  foldl (λ acc o, exec host o acc) s ops.

(** A freshly constructed entity in a host with nothing scheduled. *)
Definition boot (e : FSMEntity) : Sys :=
  {| self := e;
     hass := {| timers := []; next_handle := 0; tasks := []; bus := [];
                ha_state := None |} |}.

(** Runs in which every timeout task runs as soon as its timer elapses:
    no operation gets the lock between [_cb] and [_timeout_transition]. *)
Inductive prompt : list Op → Prop :=
| prompt_nil : prompt []
| prompt_fire h ops : prompt ops → prompt (TimerElapses h :: TaskRuns :: ops)
| prompt_trigger trig tid ops : prompt ops → prompt (Trigger trig tid :: ops)
| prompt_set_state st ops : prompt ops → prompt (SetState st :: ops)
| prompt_reset ops : prompt ops → prompt (Reset :: ops)
| prompt_apply cfg ops : prompt ops → prompt (ApplyConfig cfg :: ops)
| prompt_added eid last ops :
    prompt ops → prompt (AddedToHass eid last :: ops).

(** ** Vocabulary of the properties *)

(** The matching condition in the words of the specification. *)
Definition matches (state trig : string) (t : Transition) : Prop :=
  trigger t = trig ∧ (source t = state ∨ source t = WILDCARD).

(** The timers left by [_cancel_timeout] when [u] is the stored handle. *)
Definition cancelled (u : option nat) (ts : list Timer) : list Timer :=
  match u with
  | Some h => filter (λ t, handle t ≠ h) ts
  | None => ts
  end.

(** The arming condition of [async_trigger]. *)
Definition arms (lookup : gmap string StateDef) (t : Transition) : bool :=
  match timeout t with
  | Some timeout_cfg =>
      positive_seconds (seconds timeout_cfg)
      && declared lookup (timeout_dest timeout_cfg)
  | None => false
  end.

Definition failed_event (e : FSMEntity) (trig tid reason : string)
    (extra : list (string * value)) : Event :=
  {| event_type := EVENT_TRANSITION_FAILED;
     event_data :=
       event_payload (entity_id e)
         ([("transition_id", VStr tid); ("reason", VStr reason);
           ("trigger", VStr trig); ("from", VStr (_state e))] ++ extra) |}.

Definition started_event (host : Host) (e : FSMEntity) (trig tid : string)
    (t : Transition) : Event :=
  {| event_type := EVENT_TRANSITION_STARTED;
     event_data :=
       event_payload (entity_id e)
         [("transition_id", VStr tid); ("trigger", VStr trig);
          ("from", VStr (_state e)); ("to", VStr (dest t));
          ("guard_value",
           from_option (λ b, VStr (str_bool b)) VNone
             (_eval_guard host <$> guard_expr t))] |}.

Definition succeeded_event (host : Host) (e : FSMEntity) (trig tid : string)
    (t : Transition) : Event :=
  {| event_type := EVENT_TRANSITION_SUCCEEDED;
     event_data :=
       event_payload (entity_id e)
         [("transition_id", VStr tid); ("trigger", VStr trig);
          ("from", VStr (_state e)); ("to", VStr (dest t));
          ("actions_status", VStatus (_run_actions host (actions t)))] |}.

(** The system after a successful [set_state]. *)
Definition overridden (state : string) (s : Sys) : Sys :=
  {| self :=
       with_recent
         (_recent (self s) ++
            [{| h_transition_id := None; h_trigger := "set_state";
                h_from := _state (self s); h_to := state |}])
         (with_timeout_unsub None (with_state state (self s)));
     hass :=
       with_ha_state (Some state)
         (with_timers (cancelled (_timeout_unsub (self s)) (timers (hass s)))
            (next_handle (hass s)) (hass s)) |}.

(** Handles are issued in increasing order: every registered timer and the
    stored handle are older than the next handle. *)
Definition fresh_handles (s : Sys) : Prop :=
  (∀ tm, tm ∈ timers (hass s) → handle tm < next_handle (hass s))
  ∧ (∀ h, _timeout_unsub (self s) = Some h → h < next_handle (hass s)).

(** The issues that leave a name without a declared state behind. *)
Definition dangling (i : Issue) : bool :=
  match i with
  | UnknownInitial _ | InvalidDest _ => true
  | DuplicateTransition _ _ | InvalidSource _ => false
  end.

(** What the loader checks and only logs: the initial state and every
    transition's [dest] name a declared state. *)
Definition well_referenced (initial : string) (states : list StateDef)
    (transitions : list Transition) : Prop :=
  initial ∈ name <$> states
  ∧ ∀ t, t ∈ transitions → dest t ∈ name <$> states.

(** The configuration an entity ends up with after [async_apply_config]
    is well referenced. *)
Definition config_ok (e : FSMEntity) (cfg : Config) : Prop :=
  well_referenced (default (_initial e) (cfg_initial cfg))
                  (default (_state_definitions e) (cfg_states cfg))
                  (default (_transitions e) (cfg_transitions cfg)).

(** Every configuration applied along a run is well referenced. *)
Fixpoint accepted (host : Host) (ops : list Op) (s : Sys) : Prop :=
  match ops with
  | [] => True
  | o :: ops' =>
      match o with
      | ApplyConfig cfg => config_ok (self s) cfg
      | _ => True
      end ∧ accepted host ops' (exec host o s)
  end.

(** The scheduler's side of the invariant of runs without a race between
    a timer and the lock: the only registered timer is the stored one and
    its target is a declared state. *)
Record tidy (s : Sys) : Prop := {
  tidy_lookup :
    _state_lookup (self s) = state_lookup_of (_state_definitions (self s));
  tidy_fresh : fresh_handles s;
  tidy_tasks : tasks (hass s) = [];
  tidy_one : length (timers (hass s)) ≤ 1;
  tidy_timers :
    ∀ tm, tm ∈ timers (hass s) →
          _timeout_unsub (self s) = Some (handle tm)
          ∧ target tm ∈ name <$> _state_definitions (self s)
}.

(** The invariant of such runs under well-referenced configurations. *)
Record sound (s : Sys) : Prop := {
  sound_tidy : tidy s;
  sound_config :
    well_referenced (_initial (self s)) (_state_definitions (self s))
                    (_transitions (self s));
  sound_state : _state (self s) ∈ name <$> _state_definitions (self s)
}.

(** ** Example configuration (the scenarios of the specification) *)

Definition demo_states : list StateDef :=
  [ {| name := "idle"; description := "waiting" |};
    {| name := "running"; description := "" |};
    {| name := "done"; description := "" |} ].

Definition demo_transitions : list Transition :=
  [ {| trigger := "start"; source := "idle"; dest := "running";
       guard_expr := None; timeout := None; actions := [] |};
    {| trigger := "go"; source := "running"; dest := "done";
       guard_expr := None;
       timeout := Some {| seconds := 5; timeout_dest := "idle" |};
       actions := [ {| service := "light.turn_on"; data := [] |};
                    {| service := "nodot"; data := [] |} ] |};
    {| trigger := "stop"; source := WILDCARD; dest := "idle";
       guard_expr := Some "{{ is_state('x', 'on') }}"; timeout := None;
       actions := [] |};
    {| trigger := "stop"; source := "done"; dest := "running";
       guard_expr := None; timeout := None; actions := [] |};
    {| trigger := "check"; source := WILDCARD; dest := "done";
       guard_expr := Some "{{ broken"; timeout := None; actions := [] |} ].

(** A host whose template engine renders one expression to [" On "],
    fails on another and renders everything else to ["False"], and whose
    services all succeed. *)
Definition demo_host : Host :=
  {| async_render := λ expr,
       if String.eqb expr "{{ is_state('x', 'on') }}" then Rendered " On "
       else if String.eqb expr "{{ broken"
            then RenderError "TemplateSyntaxError"
       else Rendered "False";
     async_call := λ _ _ _, None |}.

(** A host whose template engine renders an expression to itself. *)
Definition echo_host : Host :=
  {| async_render := Rendered; async_call := λ _ _ _, None |}.

Definition demo : Sys :=
  boot (__init__ "washer" "idle" demo_states demo_transitions).

(** The example's ["go"] arms the five-second timeout to ["idle"]. *)
Definition running : Sys := run demo_host [Trigger "start" "u1"] demo.

(** Transitions that stay within ["idle"] and ["running"]. *)
Definition loop_transitions : list Transition :=
  [ {| trigger := "start"; source := "idle"; dest := "running";
       guard_expr := None; timeout := None; actions := [] |};
    {| trigger := "go"; source := "running"; dest := "running";
       guard_expr := None;
       timeout := Some {| seconds := 5; timeout_dest := "idle" |};
       actions := [] |} ].

(** An entity whose [initial] names no declared state: the loader only
    logs a warning for it. *)
Definition ghost_initial : Sys :=
  boot (__init__ "lamp" "ghost"
          [ {| name := "off"; description := "" |};
            {| name := "on"; description := "" |} ]
          [ {| trigger := "toggle"; source := WILDCARD; dest := "on";
               guard_expr := None; timeout := None; actions := [] |} ]).

(** An entity with a transition whose [dest] names no declared state: the
    loader logs an error for it and constructs the entity all the same. *)
Definition stray_transitions : list Transition :=
  [ {| trigger := "kick"; source := "closed"; dest := "broken";
       guard_expr := None; timeout := None; actions := [] |} ].

Definition stray_states : list StateDef :=
  [ {| name := "closed"; description := "" |};
    {| name := "open"; description := "" |} ].

Definition stray : Sys :=
  boot (__init__ "door" "closed" stray_states stray_transitions).

(** ** Vocabulary of the further properties *)

(** The order of [sorted] on strings: strictly smaller, byte by byte. *)
Definition str_lt (a b : string) : Prop := String.compare a b = Lt.

(** The host [host] with its service registry replaced. *)
Definition with_services (host : Host)
    (call : string → string → list (string * string) → option string) : Host :=
  {| async_render := async_render host; async_call := call |}.

(** A host whose services all raise. *)
Definition failing_host : Host :=
  with_services demo_host (λ _ _ _, Some "ServiceNotFound").

(** [d.get(k)] on a payload. *)
Fixpoint dict_get (k : string) (d : list (string * value)) : option value :=
  match d with
  | [] => None
  | (k', v) :: d' => if String.eqb k' k then Some v else dict_get k d'
  end.

(** A bus on which every [transition_started] is directly followed by the
    [transition_succeeded] of the same transition, and every other event
    is a [transition_failed]. *)
Inductive paired : list Event → Prop :=
| paired_nil : paired []
| paired_failed l ev :
    paired l → event_type ev = EVENT_TRANSITION_FAILED → paired (l ++ [ev])
| paired_done l ev1 ev2 :
    paired l →
    event_type ev1 = EVENT_TRANSITION_STARTED →
    event_type ev2 = EVENT_TRANSITION_SUCCEEDED →
    (∀ k, k ∈ ["transition_id"; "trigger"; "from"; "to"] →
          is_Some (dict_get k (event_data ev1))
          ∧ dict_get k (event_data ev1) = dict_get k (event_data ev2)) →
    paired (l ++ [ev1; ev2]).

(** The state a history leads to when read as a path from [start]: every
    entry must leave from where the previous one arrived. *)
Fixpoint history_end (start : string) (h : list HistoryEntry) : option string :=
  match h with
  | [] => Some start
  | entry :: h' =>
      if String.eqb (h_from entry) start then history_end (h_to entry) h'
      else None
  end.

(** The operations that replace the current state without recording it. *)
Definition unrecorded (o : Op) : bool :=
  match o with
  | ApplyConfig _ | AddedToHass _ _ => true
  | _ => false
  end.

(** The [(source, trigger)] pair the loader keys its duplicate check on. *)
Definition pair_of (t : Transition) : string * string := (source t, trigger t).

(** Strings made of whitespace only. *)
Fixpoint blank (s : string) : bool :=
  match s with
  | EmptyString => true
  | String c s' => isspace c && blank s'
  end.

(** Two systems that differ at most in what is on the bus. *)
Definition same_engine (s1 s2 : Sys) : Prop :=
  self s1 = self s2
  ∧ timers (hass s1) = timers (hass s2)
  ∧ next_handle (hass s1) = next_handle (hass s2)
  ∧ tasks (hass s1) = tasks (hass s2)
  ∧ ha_state (hass s1) = ha_state (hass s2).

(** The operation that replaces the configuration. *)
Definition reloads (o : Op) : bool :=
  match o with
  | ApplyConfig _ => true
  | _ => false
  end.

(** * Properties *)

Arguments event_payload : simpl never.

(** Unfolds the monadic plumbing of a method body. *)
Ltac run_m :=
  unfold _timeout_transition, _schedule_timeout, _cancel_timeout,
    _fire_event, bus_async_fire, async_write_ha_state, async_call_later,
    unsub, gets, modify_self, modify_hass, mbind, M_bind, mret, M_ret in *;
  cbn [fst snd self hass] in *.

(** ** Transition resolution *)

Lemma matching_test state trig t :
  String.eqb (trigger t) trig
    && (String.eqb (source t) state || String.eqb (source t) WILDCARD) = true
  ↔ matches state trig t.
Proof.
  unfold matches.
  rewrite andb_true_iff, orb_true_iff, !String.eqb_eq. tauto.
Qed.

Lemma matching_Some ts state trig t :
  matching ts state trig = Some t ↔
  ∃ pre post, ts = pre ++ t :: post ∧ matches state trig t
              ∧ Forall (λ u, ¬ matches state trig u) pre.
Proof.
  induction ts as [|a ts IH]; simpl.
  - split; [discriminate|]. intros (pre & post & E & _). by destruct pre.
  - destruct (_ && _) eqn:Ht.
    + apply matching_test in Ht. split.
      * intros [= <-]. exists [], ts. auto.
      * intros (pre & post & E & Hm & Hpre). destruct pre as [|b pre].
        -- simpl in E. congruence.
        -- simpl in E. injection E as <- _.
           apply Forall_cons in Hpre as [Hb _]. contradiction.
    + assert (¬ matches state trig a) as Ha.
      { rewrite <- matching_test, Ht. discriminate. }
      rewrite IH. split.
      * intros (pre & post & -> & Hm & Hpre).
        exists (a :: pre), post. split; [done|]. split; [done|].
        by apply Forall_cons.
      * intros (pre & post & E & Hm & Hpre). destruct pre as [|b pre].
        -- simpl in E. injection E as -> _. contradiction.
        -- simpl in E. injection E as <- ->.
           apply Forall_cons in Hpre as [_ Hpre]. eauto.
Qed.

Lemma matching_None ts state trig :
  matching ts state trig = None ↔ Forall (λ u, ¬ matches state trig u) ts.
Proof.
  induction ts as [|a ts IH]; simpl.
  - split; auto.
  - destruct (_ && _) eqn:Ht.
    + apply matching_test in Ht. split; [discriminate|].
      intros [Ha _]%Forall_cons. contradiction.
    + rewrite IH, Forall_cons. split; [|tauto].
      intros H. split; [|done]. rewrite <- matching_test, Ht. discriminate.
Qed.

(** C6. Resolution scans the transitions in declaration order and returns
    the first one whose trigger is the requested one and whose source is
    the current state or the wildcard; of two matching transitions, one
    specific and one wildcard, the one declared first is returned whichever
    of the two it is; without a match the result is [None], and
    [async_trigger] then answers [false]. *)
Theorem matching_declaration_order (host : Host) (ts : list Transition)
    (state trig : string) :
  (∀ t, matching ts state trig = Some t ↔
        ∃ pre post, ts = pre ++ t :: post ∧ matches state trig t
                    ∧ Forall (λ u, ¬ matches state trig u) pre)
  ∧ (∀ pre a mid b post,
        ts = pre ++ a :: mid ++ b :: post →
        Forall (λ u, ¬ matches state trig u) pre →
        trigger a = trig → trigger b = trig →
        (source a = state ∧ source b = WILDCARD
         ∨ source a = WILDCARD ∧ source b = state) →
        matching ts state trig = Some a)
  ∧ (matching ts state trig = None ↔
     Forall (λ u, ¬ matches state trig u) ts)
  ∧ (∀ tid s, _transitions (self s) = ts → _state (self s) = state →
        matching ts state trig = None →
        (async_trigger host trig tid s).1 = false).
Proof.
  split; [|split; [|split]].
  - intros t. apply matching_Some.
  - intros pre a mid b post -> Hpre Ha Hb Hsrc.
    apply matching_Some. exists pre, (mid ++ b :: post).
    split; [done|]. split; [|done].
    unfold matches. destruct Hsrc as [[? _]|[? _]]; auto.
  - apply matching_None.
  - intros tid s Hts Hst Hnone. unfold async_trigger. run_m.
    by rewrite Hts, Hst, Hnone.
Qed.

(** ** Guard evaluation *)


Example eval_guard_demo :
  _eval_guard demo_host "{{ is_state('x', 'on') }}" = true
  ∧ _eval_guard demo_host "{{ broken" = false
  ∧ _eval_guard demo_host "{{ 0 }}" = false.
Proof. by vm_compute. Qed.

Example strip_lower_examples :
  let tab := String (ascii_of_nat 9) "" in
  let newline := String (ascii_of_nat 10) "" in
  strip (" " +:+ tab +:+ "Yes, On" +:+ newline +:+ " ") = "Yes, On"
  ∧ lower "Yes, On [1]" = "yes, on [1]"
  ∧ strip (tab +:+ newline) = ""
  ∧ strip "a b" = "a b".
Proof. by vm_compute. Qed.

Example eval_guard_rendered_texts :
  _eval_guard echo_host <$> ["1"; " True "; "YES"; "on"; "  tRuE"]
  = [true; true; true; true; true]
  ∧ _eval_guard echo_host <$> [""; "0"; "false"; "off"; "t rue"; "2"]
    = [false; false; false; false; false; false].
Proof. by vm_compute. Qed.

(** ** The three outcomes of [async_trigger] *)

Lemma async_trigger_no_match host trig tid s :
  matching (_transitions (self s)) (_state (self s)) trig = None →
  async_trigger host trig tid s =
    (false,
     {| self := self s;
        hass := with_bus (bus (hass s) ++
                  [failed_event (self s) trig tid "no_matching_transition" []])
                  (hass s) |}).
Proof. intros H. unfold async_trigger. run_m. by rewrite H. Qed.

Lemma async_trigger_guard_false host trig tid s t :
  matching (_transitions (self s)) (_state (self s)) trig = Some t →
  _eval_guard host <$> guard_expr t = Some false →
  async_trigger host trig tid s =
    (false,
     {| self := self s;
        hass := with_bus (bus (hass s) ++
                  [failed_event (self s) trig tid "guard_false"
                     [("guard_value", VStr "False")]])
                  (hass s) |}).
Proof.
  intros H G. unfold async_trigger. run_m. rewrite H. cbn beta iota.
  by rewrite G.
Qed.

Lemma async_trigger_commit host trig tid s t :
  matching (_transitions (self s)) (_state (self s)) trig = Some t →
  _eval_guard host <$> guard_expr t ≠ Some false →
  async_trigger host trig tid s =
    (true,
     let armed := arms (_state_lookup (self s)) t in
     let h := next_handle (hass s) in
     {| self :=
          with_recent
            (_recent (self s) ++
               [{| h_transition_id := Some tid; h_trigger := trig;
                   h_from := _state (self s); h_to := dest t |}])
            (with_timeout_unsub (if armed then Some h else None)
               (with_state (dest t) (self s)));
        hass :=
          {| timers :=
               cancelled (_timeout_unsub (self s)) (timers (hass s)) ++
               match timeout t with
               | Some tc =>
                   if armed
                   then [{| handle := h; delay := seconds tc;
                            target := timeout_dest tc |}]
                   else []
               | None => []
               end;
             next_handle := if armed then S h else h;
             tasks := tasks (hass s);
             bus := bus (hass s) ++
                      [started_event host (self s) trig tid t;
                       succeeded_event host (self s) trig tid t];
             ha_state := Some (dest t) |} |}).
Proof.
  intros H G. unfold async_trigger. run_m. rewrite H. cbn beta iota.
  rewrite bool_decide_eq_false_2 by done.
  destruct s as [e hs]; cbn [self hass] in *.
  unfold arms, started_event, succeeded_event.
  destruct e, hs; cbn in *.
  destruct _timeout_unsub0 as [u|]; cbn;
    destruct (timeout t) as [cfg|]; cbn;
    try destruct (positive_seconds (seconds cfg) && _); cbn;
    rewrite <- ?app_assoc, ?app_nil_r; try done.
Qed.

Lemma event_kinds_distinct :
  EVENT_TRANSITION_FAILED ≠ EVENT_TRANSITION_STARTED.
Proof. discriminate. Qed.

(** C1. A call of [trigger] answers a boolean and leaves [current_state]
    either untouched, with answer [false], or equal to the [dest] of the
    matched transition, with answer [true]. On the [false] paths (no
    transition matched, or the guard evaluated false) the entity and the
    scheduler are exactly as before and the only event emitted is one
    [transition_failed]: no [transition_started]. *)
Theorem trigger_unchanged_or_dest (host : Host) (trig tid : string) (s : Sys) :
  let r := async_trigger host trig tid s in
  let found := matching (_transitions (self s)) (_state (self s)) trig in
  (r.1 = false
   ∧ self r.2 = self s
   ∧ (found = None
      ∨ ∃ t g, found = Some t ∧ guard_expr t = Some g
               ∧ _eval_guard host g = false)
   ∧ ∃ ev, hass r.2 = with_bus (bus (hass s) ++ [ev]) (hass s)
           ∧ event_type ev = EVENT_TRANSITION_FAILED
           ∧ event_type ev ≠ EVENT_TRANSITION_STARTED)
  ∨ (r.1 = true
     ∧ ∃ t, found = Some t ∧ _state (self r.2) = dest t).
Proof.
  cbn zeta.
  destruct (matching (_transitions (self s)) (_state (self s)) trig)
    as [t|] eqn:Hm.
  - destruct (decide (_eval_guard host <$> guard_expr t = Some false))
      as [Hg|Hg].
    + left. rewrite (async_trigger_guard_false _ _ _ _ _ Hm Hg). cbn.
      split; [done|]. split; [done|]. split.
      * right. destruct (guard_expr t) as [g|] eqn:Eg; [|done].
        exists t, g. cbn in Hg. by injection Hg as Hg.
      * eexists. split; [done|]. split; [done|]. apply event_kinds_distinct.
    + right. rewrite (async_trigger_commit _ _ _ _ _ Hm Hg). cbn.
      split; [done|]. by exists t.
  - left. rewrite (async_trigger_no_match _ _ _ _ Hm). cbn.
    split; [done|]. split; [done|]. split; [by left|].
    eexists. split; [done|]. split; [done|]. apply event_kinds_distinct.
Qed.

(** The scenarios of the specification: a plain transition, an unknown
    trigger, a guard that evaluates false. *)
Example trigger_scenarios :
  let started := async_trigger demo_host "start" "u1" demo in
  let unknown := async_trigger demo_host "nonexistent" "u1" demo in
  let guarded := async_trigger demo_host "check" "u1" demo in
  started.1 = true
  ∧ _state (self started.2) = "running"
  ∧ event_type <$> bus (hass started.2)
    = [EVENT_TRANSITION_STARTED; EVENT_TRANSITION_SUCCEEDED]
  ∧ length (_recent (self started.2)) = 1
  ∧ unknown.1 = false
  ∧ _state (self unknown.2) = "idle"
  ∧ bus (hass unknown.2)
    = [failed_event (self demo) "nonexistent" "u1" "no_matching_transition" []]
  ∧ guarded.1 = false
  ∧ self guarded.2 = self demo
  ∧ timers (hass guarded.2) = []
  ∧ event_type <$> bus (hass guarded.2) = [EVENT_TRANSITION_FAILED].
Proof. by vm_compute. Qed.

(** C7. When the matched transition has a guard whose evaluation raises,
    nothing escapes [_eval_guard], which answers [false]; [trigger] then
    emits one [transition_failed] with reason [guard_false], answers
    [false] and changes neither the entity nor the scheduler; the outcome
    is the one of any host on which the guard evaluates cleanly to false. *)
Theorem guard_error_fails_closed (host : Host) (trig tid : string) (s : Sys)
    (t : Transition) (g msg : string) :
  matching (_transitions (self s)) (_state (self s)) trig = Some t →
  guard_expr t = Some g →
  async_render host g = RenderError msg →
  _eval_guard host g = false
  ∧ async_trigger host trig tid s =
      (false,
       {| self := self s;
          hass := with_bus (bus (hass s) ++
                    [failed_event (self s) trig tid "guard_false"
                       [("guard_value", VStr "False")]])
                    (hass s) |})
  ∧ ∀ host' : Host,
      _eval_guard host' g = false →
      async_trigger host' trig tid s = async_trigger host trig tid s.
Proof.
  intros Hm Hg Hr.
  assert (_eval_guard host g = false) as He.
  { unfold _eval_guard. by rewrite Hr. }
  split; [done|]. split.
  - apply (async_trigger_guard_false _ _ _ _ t); [done|].
    rewrite Hg. cbn. by rewrite He.
  - intros host' He'.
    rewrite (async_trigger_guard_false host' _ _ _ t),
            (async_trigger_guard_false host _ _ _ t); try done.
    + rewrite Hg. cbn. by rewrite He.
    + rewrite Hg. cbn. by rewrite He'.
Qed.

(** The guard of the ["check"] transition of the example raises. *)
Lemma guard_error_fails_closed_witness :
  _eval_guard demo_host "{{ broken" = false
  ∧ async_trigger demo_host "check" "u1" demo =
      (false,
       {| self := self demo;
          hass := with_bus (bus (hass demo) ++
                    [failed_event (self demo) "check" "u1" "guard_false"
                       [("guard_value", VStr "False")]])
                    (hass demo) |})
  ∧ ∀ host' : Host,
      _eval_guard host' "{{ broken" = false →
      async_trigger host' "check" "u1" demo
      = async_trigger demo_host "check" "u1" demo.
Proof.
  apply (guard_error_fails_closed demo_host "check" "u1" demo
           {| trigger := "check"; source := WILDCARD; dest := "done";
              guard_expr := Some "{{ broken"; timeout := None;
              actions := [] |} "{{ broken" "TemplateSyntaxError");
    reflexivity.
Defined.

(** ** Declared state names *)

Lemma state_lookup_of_snoc states sd :
  state_lookup_of (states ++ [sd])
  = <[name sd := sd]> (state_lookup_of states).
Proof. unfold state_lookup_of. by rewrite foldl_app. Qed.

(** The keys of [_state_lookup] are the names in [_state_definitions]. *)
Lemma declared_state_lookup_of states key :
  declared (state_lookup_of states) key = true ↔ key ∈ name <$> states.
Proof.
  unfold declared. rewrite bool_decide_eq_true.
  induction states as [|sd states IH] using rev_ind.
  - cbn. rewrite lookup_empty. split; [by intros [? ?]|].
    by intros ?%elem_of_nil.
  - rewrite state_lookup_of_snoc, fmap_app, elem_of_app. cbn.
    rewrite list_elem_of_singleton.
    destruct (decide (name sd = key)) as [->|Hne].
    + rewrite lookup_insert_eq. split; eauto.
    + rewrite lookup_insert_ne by done. rewrite IH. split; [tauto|].
      intros [?|?]; [done|congruence].
Qed.

(** ** [set_state] and [reset] *)

Lemma async_set_state_eq state s :
  async_set_state state s =
    if declared (_state_lookup (self s)) state
    then (true, overridden state s)
    else (false, s).
Proof.
  unfold async_set_state, overridden. run_m.
  destruct (declared _ state); cbn; [|done].
  destruct s as [e hs]. destruct e, hs; cbn.
  by destruct _timeout_unsub0.
Qed.

(** C9. [set_state(state)] answers [false] and changes nothing when
    [state] is not a declared state name; otherwise, whatever the
    transitions and guards say, it sets [current_state] to [state],
    cancels the pending timeout, appends the history entry
    [{trigger: "set_state", from, to}] and answers [true]. *)
Theorem set_state_declared_or_untouched (state : string) (s : Sys) :
  let r := async_set_state state s in
  if declared (_state_lookup (self s)) state
  then r.1 = true
       ∧ _state (self r.2) = state
       ∧ _timeout_unsub (self r.2) = None
       ∧ timers (hass r.2)
         = cancelled (_timeout_unsub (self s)) (timers (hass s))
       ∧ _recent (self r.2)
         = _recent (self s) ++
             [{| h_transition_id := None; h_trigger := "set_state";
                 h_from := _state (self s); h_to := state |}]
       ∧ bus (hass r.2) = bus (hass s)
       ∧ _transitions (self r.2) = _transitions (self s)
       ∧ _state_lookup (self r.2) = _state_lookup (self s)
       ∧ _initial (self r.2) = _initial (self s)
  else r = (false, s).
Proof.
  cbn zeta. rewrite async_set_state_eq.
  destruct (declared _ state); [|done]. cbn. repeat split.
Qed.

Example set_state_demo :
  async_set_state "nowhere" demo = (false, demo)
  ∧ (async_set_state "done" demo).1 = true
  ∧ _state (self (async_set_state "done" demo).2) = "done".
Proof. by vm_compute. Qed.

Lemma async_reset_eq s :
  async_reset s = (tt, (async_set_state (_initial (self s)) s).2).
Proof. unfold async_reset. by run_m. Qed.

(** C5, as the code has it. [reset()] is [set_state(initial_state)] with
    the answer dropped. When [initial_state] is a declared state, two
    [reset()] in a row leave [current_state] equal to [initial_state]
    after each of them and append one [set_state] history entry each;
    when it is not, neither [reset()] changes anything. *)
Theorem reset_is_set_state_initial (s : Sys) :
  let s1 := (async_reset s).2 in
  let s2 := (async_reset s1).2 in
  s1 = (async_set_state (_initial (self s)) s).2
  ∧ s2 = (async_set_state (_initial (self s1)) s1).2
  ∧ if declared (_state_lookup (self s)) (_initial (self s))
    then _state (self s1) = _initial (self s)
         ∧ _state (self s2) = _initial (self s)
         ∧ _initial (self s2) = _initial (self s)
         ∧ _recent (self s1)
           = _recent (self s) ++
               [{| h_transition_id := None; h_trigger := "set_state";
                   h_from := _state (self s); h_to := _initial (self s) |}]
         ∧ _recent (self s2)
           = _recent (self s1) ++
               [{| h_transition_id := None; h_trigger := "set_state";
                   h_from := _initial (self s); h_to := _initial (self s) |}]
    else s1 = s ∧ s2 = s.
Proof.
  cbn zeta. rewrite !async_reset_eq. cbn [snd].
  split; [done|]. split; [done|].
  rewrite (async_set_state_eq _ s).
  destruct (declared _ _) eqn:Hd; cbn [snd].
  - rewrite (async_set_state_eq _ (overridden _ s)). cbn.
    rewrite Hd. by cbn.
  - by rewrite async_set_state_eq, Hd.
Qed.

(** C5 fails as stated: after [trigger("toggle")] the entity is in ["on"];
    two [reset()] later it still is, [initial_state] being ["ghost"], and
    the history holds the trigger's entry only. *)
Lemma reset_twice_undeclared_initial :
  let s0 := run demo_host [Trigger "toggle" "u1"] ghost_initial in
  let s1 := (async_reset s0).2 in
  let s2 := (async_reset s1).2 in
  _state (self s0) = "on"
  ∧ _initial (self s0) = "ghost"
  ∧ _state (self s1) ≠ _initial (self s1)
  ∧ _state (self s2) ≠ _initial (self s2)
  ∧ _recent (self s2) = _recent (self s0).
Proof. vm_compute. by repeat split. Qed.

(** ** Timeouts *)

Lemma positive_seconds_lt (q : Q) : positive_seconds q = true ↔ (0 < q)%Q.
Proof.
  unfold positive_seconds. rewrite negb_true_iff. split.
  - intros H. apply Qnot_le_lt. intros Hle.
    apply Qle_bool_iff in Hle. congruence.
  - intros H. destruct (Qle_bool q 0) eqn:E; [|done].
    apply Qle_bool_iff in E. by apply Qlt_not_le in H.
Qed.

Lemma arms_iff lookup t :
  arms lookup t = true ↔
  ∃ cfg, timeout t = Some cfg ∧ (0 < seconds cfg)%Q
         ∧ is_Some (lookup !! timeout_dest cfg).
Proof.
  unfold arms, declared. destruct (timeout t) as [cfg|].
  - rewrite andb_true_iff, positive_seconds_lt, bool_decide_eq_true. split.
    + intros [? ?]. by exists cfg.
    + by intros (? & [= <-] & ? & ?).
  - split; [done|]. by intros (? & [=] & _).
Qed.

Lemma elem_of_cancelled u ts tm :
  tm ∈ cancelled u ts ↔ tm ∈ ts ∧ ∀ h, u = Some h → handle tm ≠ h.
Proof.
  destruct u as [h|]; cbn.
  - rewrite list_elem_of_filter. split.
    + intros [? ?]. split; [done|]. by intros ? [= <-].
    + intros [? H]. split; [|done]. by apply H.
  - split; [|tauto]. intros ?. split; [done|]. by intros ? [=].
Qed.

Lemma filter_handle_fresh (ts : list Timer) (h : nat) :
  (∀ tm : Timer, tm ∈ ts → handle tm < h) →
  filter (λ tm, handle tm = h) ts = [].
Proof.
  intros H. induction ts as [|tm ts IH]; [done|].
  rewrite filter_cons_False.
  - apply IH. intros ? ?. apply H. by right.
  - specialize (H tm). ospecialize (H _); [by left|]. lia.
Qed.

Lemma filter_handle_others (ts : list Timer) (h : nat) :
  (∀ tm : Timer, tm ∈ ts → handle tm < h) →
  filter (λ tm, handle tm ≠ h) ts = ts.
Proof.
  intros H. induction ts as [|tm ts IH]; [done|].
  rewrite filter_cons_True.
  - f_equal. apply IH. intros ? ?. apply H. by right.
  - specialize (H tm). ospecialize (H _); [by left|]. lia.
Qed.

(** A registered timer with a fresh handle elapses and its task runs at
    once. *)
Lemma fire_fresh_timer host (ts : list Timer) h secs d e hs :
  (∀ tm : Timer, tm ∈ ts → handle tm < h) →
  tasks hs = [] →
  timers hs = ts ++ [{| handle := h; delay := secs; target := d |}] →
  run host [TimerElapses h; TaskRuns] {| self := e; hass := hs |} =
    {| self :=
         with_timeout_unsub None
           (with_recent
              (_recent e ++
                 [{| h_transition_id := None; h_trigger := "timeout";
                     h_from := _state e; h_to := d |}])
              (with_state d e));
       hass := with_ha_state (Some d) (with_timers ts (next_handle hs) hs) |}.
Proof.
  intros Hts Htasks Htimers. cbn. unfold timer_elapses, task_runs. run_m.
  rewrite Htimers, filter_app, (filter_handle_fresh _ _ Hts).
  rewrite filter_singleton_True by done. cbn.
  rewrite Htasks. cbn.
  rewrite filter_app, (filter_handle_others _ _ Hts).
  rewrite filter_singleton_False by (cbn; auto). rewrite app_nil_r.
  destruct e, hs; cbn in *. by subst.
Qed.

(** C8. When a transition commits, the timeout armed before is cancelled
    whatever the transition says; a new one is armed exactly when the
    transition declares a timeout with [seconds > 0] and a [dest] that is a
    declared state, and otherwise none is armed and the commit succeeds all
    the same; when the armed timeout fires before anything else happens,
    [current_state] becomes the timeout's [dest] without any event (no
    guard, no action), the entry [{trigger: "timeout", from, to}] is
    appended and the stored handle is cleared. *)
Theorem commit_cancels_and_rearms (host : Host) (trig tid : string) (s : Sys)
    (t : Transition) :
  matching (_transitions (self s)) (_state (self s)) trig = Some t →
  _eval_guard host <$> guard_expr t ≠ Some false →
  fresh_handles s →
  tasks (hass s) = [] →
  let s' := (async_trigger host trig tid s).2 in
  let h := next_handle (hass s) in
  let declares cfg :=
    timeout t = Some cfg ∧ (0 < seconds cfg)%Q
    ∧ is_Some (_state_lookup (self s) !! timeout_dest cfg) in
  (async_trigger host trig tid s).1 = true
  ∧ _state (self s') = dest t
  ∧ (∀ h0 tm, _timeout_unsub (self s) = Some h0 →
              tm ∈ timers (hass s') → handle tm ≠ h0)
  ∧ ((∃ cfg, timeout t = Some cfg ∧ _timeout_unsub (self s') = Some h
             ∧ {| handle := h; delay := seconds cfg;
                  target := timeout_dest cfg |} ∈ timers (hass s'))
     ↔ ∃ cfg, declares cfg)
  ∧ (¬ (∃ cfg, declares cfg) →
     _timeout_unsub (self s') = None
     ∧ timers (hass s')
       = cancelled (_timeout_unsub (self s)) (timers (hass s)))
  ∧ (∀ cfg, declares cfg →
       let s'' := run host [TimerElapses h; TaskRuns] s' in
       _state (self s'') = timeout_dest cfg
       ∧ _recent (self s'')
         = _recent (self s') ++
             [{| h_transition_id := None; h_trigger := "timeout";
                 h_from := dest t; h_to := timeout_dest cfg |}]
       ∧ _timeout_unsub (self s'') = None
       ∧ bus (hass s'') = bus (hass s')
       ∧ timers (hass s'')
         = cancelled (_timeout_unsub (self s)) (timers (hass s))).
Proof.
  intros Hm Hg [Hts Hu] Htasks. cbn zeta.
  rewrite (async_trigger_commit _ _ _ _ _ Hm Hg). cbn zeta. cbn [fst snd].
  assert (∀ tm, tm ∈ cancelled (_timeout_unsub (self s)) (timers (hass s)) →
                handle tm < next_handle (hass s)) as Hold.
  { intros tm [Htm _]%elem_of_cancelled. by apply Hts. }
  split; [done|]. split; [done|]. split; [|split; [|split]].
  - intros h0 tm Hh0. cbn. rewrite elem_of_app.
    intros [Htm|Htm].
    + apply elem_of_cancelled in Htm as [_ Hne]. by apply Hne.
    + specialize (Hu _ Hh0).
      destruct (timeout t) as [cfg|]; [|by apply elem_of_nil in Htm].
      destruct (arms _ t); [|by apply elem_of_nil in Htm].
      apply list_elem_of_singleton in Htm as ->. cbn. lia.
  - rewrite <- arms_iff. cbn. split.
    + intros (cfg & Hcfg & Hsome & _).
      by destruct (arms _ t).
    + intros Harm. rewrite Harm.
      destruct (timeout t) as [cfg|] eqn:Hcfg.
      * exists cfg. split; [done|]. split; [done|].
        apply elem_of_app. right. by left.
      * unfold arms in Harm. by rewrite Hcfg in Harm.
  - rewrite <- arms_iff. intros Harm%not_true_is_false. cbn.
    rewrite Harm. split; [done|].
    destruct (timeout t); by rewrite app_nil_r.
  - intros cfg Hcfg.
    assert (arms (_state_lookup (self s)) t = true) as Harm.
    { apply arms_iff. by exists cfg. }
    destruct Hcfg as (Hcfg & _). rewrite Harm, Hcfg.
    erewrite (fire_fresh_timer host _ _ _ _ _ _ Hold); [|done|done].
    cbn. done.
Qed.

Lemma commit_cancels_and_rearms_witness :
  let s := running in
  let s' := (async_trigger demo_host "go" "u2" s).2 in
  let s'' := run demo_host [TimerElapses 0; TaskRuns] s' in
  fresh_handles s
  ∧ tasks (hass s) = []
  ∧ (async_trigger demo_host "go" "u2" s).1 = true
  ∧ _state (self s') = "done"
  ∧ (∃ cfg, _timeout_unsub (self s') = Some 0
            ∧ {| handle := 0; delay := seconds cfg;
                 target := timeout_dest cfg |} ∈ timers (hass s'))
  ∧ _state (self s'') = "idle"
  ∧ _recent (self s'')
    = _recent (self s') ++
        [{| h_transition_id := None; h_trigger := "timeout";
            h_from := "done"; h_to := "idle" |}]
  ∧ _timeout_unsub (self s'') = None
  ∧ bus (hass s'') = bus (hass s').
Proof.
  cbn zeta.
  assert (fresh_handles running) as Hf.
  { split; [intros tm Htm; by apply elem_of_nil in Htm | intros h0 [=]]. }
  pose (cfg := {| seconds := 5; timeout_dest := "idle" |}).
  pose (t := {| trigger := "go"; source := "running"; dest := "done";
                guard_expr := None; timeout := Some cfg;
                actions := [ {| service := "light.turn_on"; data := [] |};
                             {| service := "nodot"; data := [] |} ] |}).
  assert (_eval_guard demo_host <$> guard_expr t ≠ Some false) as Hg.
  { discriminate. }
  destruct (commit_cancels_and_rearms demo_host "go" "u2" running t
              eq_refl Hg Hf eq_refl)
    as (Hok & Hst & _ & Harm & _ & Hfire).
  assert (timeout t = Some cfg ∧ (0 < seconds cfg)%Q
          ∧ is_Some (_state_lookup (self running) !! timeout_dest cfg))
    as Hdecl.
  { split; [reflexivity|]. split; [reflexivity|]. vm_compute. by eexists. }
  destruct (Hfire cfg Hdecl) as (H1 & H2 & H3 & H4 & _).
  destruct Harm as [_ Harm].
  destruct Harm as (cfg' & _ & Hu & Hin); [by exists cfg|].
  split; [exact Hf|]. split; [reflexivity|]. split; [exact Hok|].
  split; [exact Hst|]. split; [exists cfg'; by split|].
  split; [exact H1|]. split; [exact H2|]. split; [exact H3|exact H4].
Defined.

(** The scenario of the specification: five seconds after ["go"] the
    entity is back in ["idle"] with a [timeout] history entry. *)
Example timeout_scenario :
  let s :=
    run demo_host [Trigger "go" "u2"; TimerElapses 0; TaskRuns] running in
  _state (self s) = "idle"
  ∧ last (_recent (self s))
    = Some {| h_transition_id := None; h_trigger := "timeout";
              h_from := "done"; h_to := "idle" |}
  ∧ _timeout_unsub (self s) = None ∧ timers (hass s) = [].
Proof. by vm_compute. Qed.

(** ** The remaining operations in closed form *)

Lemma async_apply_config_eq cfg s :
  async_apply_config cfg s =
    (tt,
     let e := self s in
     let i := default (_initial e) (cfg_initial cfg) in
     let sd := default (_state_definitions e) (cfg_states cfg) in
     let ts := default (_transitions e) (cfg_transitions cfg) in
     let st := if declared (state_lookup_of sd) (_state e)
               then _state e else i in
     {| self := with_state st (with_config i sd ts (with_timeout_unsub None e));
        hass :=
          with_ha_state (Some st)
            (with_timers (cancelled (_timeout_unsub e) (timers (hass s)))
               (next_handle (hass s)) (hass s)) |}).
Proof.
  unfold async_apply_config. run_m.
  destruct s as [e hs]. destruct e, hs; cbn.
  destruct _timeout_unsub0; cbn;
    destruct (declared _ _state0); cbn; done.
Qed.

Lemma async_added_to_hass_eq last s :
  async_added_to_hass last s =
    (tt,
     let e := self s in
     let st := match last with
               | Some st =>
                   if negb (bool_decide (st = ""))
                      && declared (_state_lookup e) st
                   then st else _state e
               | None => _state e
               end in
     {| self := with_state st e;
        hass := with_ha_state (Some st) (hass s) |}).
Proof.
  unfold async_added_to_hass. run_m.
  destruct s as [e hs]. destruct e, hs; cbn.
  destruct last as [st|]; cbn; [|done].
  destruct (negb _ && _); cbn; done.
Qed.

Lemma task_runs_eq s :
  task_runs s =
    (tt,
     match tasks (hass s) with
     | d :: rest =>
         {| self :=
              with_timeout_unsub None
                (with_recent
                   (_recent (self s) ++
                      [{| h_transition_id := None; h_trigger := "timeout";
                          h_from := _state (self s); h_to := d |}])
                   (with_state d (self s)));
            hass := with_ha_state (Some d) (with_tasks rest (hass s)) |}
     | [] => s
     end).
Proof.
  unfold task_runs. destruct (tasks (hass s)) as [|d rest] eqn:E; [done|].
  run_m. destruct s as [e hs]. destruct e, hs; cbn in *. done.
Qed.

Lemma timer_elapses_self h s : self (timer_elapses h s).2 = self s.
Proof.
  unfold timer_elapses.
  destruct (filter _ (timers (hass s))); [done|]. by run_m.
Qed.

(** ** The history *)


Lemma run_snoc host ops o s :
  run host (ops ++ [o]) s = exec host o (run host ops s).
Proof. unfold run. by rewrite foldl_app. Qed.






(** Twelve successful [set_state] calls: ten entries are exposed, the
    oldest two of the twelve recorded ones are no longer among them. *)
Example recent_history_demo :
  let s := run demo_host
             (SetState <$> ["idle"; "running"; "done"; "idle"; "running";
                            "done"; "idle"; "running"; "done"; "idle";
                            "running"; "done"]) demo in
  let history := recent_transitions (extra_state_attributes (self s)) in
  length history = 10
  ∧ length (_recent (self s)) = 12
  ∧ h_to <$> history
    = ["done"; "idle"; "running"; "done"; "idle"; "running"; "done"; "idle";
       "running"; "done"]
  ∧ h_from <$> head history = Some "running".
Proof. by vm_compute. Qed.

(** ** Declared current state *)

Lemma tidy_declared s key :
  tidy s →
  declared (_state_lookup (self s)) key = true
  ↔ key ∈ name <$> _state_definitions (self s).
Proof. intros H. rewrite (tidy_lookup _ H). apply declared_state_lookup_of. Qed.

(** Under the invariant [_cancel_timeout] leaves no timer registered. *)
Lemma tidy_cancelled s :
  tidy s → cancelled (_timeout_unsub (self s)) (timers (hass s)) = [].
Proof.
  intros H. destruct (timers (hass s)) as [|tm ts] eqn:E.
  - by destruct (_timeout_unsub (self s)).
  - pose proof (tidy_one _ H) as Hlen. rewrite E in Hlen. cbn in Hlen.
    destruct ts; [|cbn in Hlen; lia].
    destruct (tidy_timers _ H tm) as [-> _]; [rewrite E; by left|].
    unfold cancelled. rewrite filter_cons_False; [done|].
    intros Hne. by apply Hne.
Qed.

(** No timer is registered and no handle stored. *)
Lemma tidy_idle s :
  _state_lookup (self s) = state_lookup_of (_state_definitions (self s)) →
  timers (hass s) = [] → tasks (hass s) = [] →
  _timeout_unsub (self s) = None →
  tidy s.
Proof.
  intros Hl Ht Hk Hu. split; try done.
  - split; [rewrite Ht; by intros ? ?%elem_of_nil |].
    rewrite Hu. by intros ? [=].
  - rewrite Ht. cbn. lia.
  - rewrite Ht. by intros ? ?%elem_of_nil.
Qed.

Lemma tidy_boot oid initial states transitions :
  tidy (boot (__init__ oid initial states transitions)).
Proof. by apply tidy_idle. Qed.

Lemma tidy_trigger host trig tid s :
  tidy s → tidy (async_trigger host trig tid s).2.
Proof.
  intros H.
  destruct (matching (_transitions (self s)) (_state (self s)) trig)
    as [t|] eqn:Hm.
  - destruct (decide (_eval_guard host <$> guard_expr t = Some false))
      as [Hg|Hg].
    + rewrite (async_trigger_guard_false _ _ _ _ _ Hm Hg).
      by destruct H.
    + rewrite (async_trigger_commit _ _ _ _ _ Hm Hg). cbn zeta. cbn [snd].
      rewrite (tidy_cancelled _ H). cbn [app].
      pose proof (arms_iff (_state_lookup (self s)) t) as Harm.
      destruct H as [Hl [Hf1 Hf2] Hk H1 Htm]. split; cbn; try done.
      * split; cbn.
        -- intros tm. destruct (timeout t) as [cfg|]; [|by intros ?%elem_of_nil].
           destruct (arms _ t); [|by intros ?%elem_of_nil].
           intros ->%list_elem_of_singleton. cbn. lia.
        -- destruct (arms _ t); [|done]. intros ? [= <-]. lia.
      * destruct (timeout t); [destruct (arms _ t)|]; cbn; lia.
      * intros tm. destruct (timeout t) as [cfg|]; [|by intros ?%elem_of_nil].
        destruct (arms _ t); [|by intros ?%elem_of_nil].
        intros ->%list_elem_of_singleton. cbn. split; [done|].
        destruct Harm as [(cfg' & [= <-] & _ & Hd) _]; [done|].
        apply declared_state_lookup_of. rewrite <- Hl. unfold declared.
        by apply bool_decide_eq_true.
  - rewrite (async_trigger_no_match _ _ _ _ Hm). by destruct H.
Qed.

Lemma tidy_set_state state s : tidy s → tidy (async_set_state state s).2.
Proof.
  intros H. rewrite async_set_state_eq.
  destruct (declared _ state); [|done].
  unfold overridden. cbn [snd]. rewrite (tidy_cancelled _ H).
  destruct H as [Hl _ Hk _ _]. by apply tidy_idle.
Qed.

Lemma tidy_apply_config cfg s : tidy s → tidy (async_apply_config cfg s).2.
Proof.
  intros H. rewrite async_apply_config_eq. cbn zeta. cbn [snd].
  rewrite (tidy_cancelled _ H).
  destruct H as [Hl _ Hk _ _]. by apply tidy_idle.
Qed.

Lemma tidy_added_to_hass host eid last s :
  tidy s → tidy (exec host (AddedToHass eid last) s).
Proof.
  intros H. cbn [exec]. run_m. rewrite async_added_to_hass_eq.
  by destruct H.
Qed.

(** A timer elapses and its task runs before anything else gets the lock:
    nothing happens when the timer is not registered, and otherwise the
    entity moves to the timer's target, a declared state. *)
Lemma fire_registered host h s :
  tidy s →
  let s' := run host [TimerElapses h; TaskRuns] s in
  s' = s
  ∨ tidy s'
    ∧ _initial (self s') = _initial (self s)
    ∧ _transitions (self s') = _transitions (self s)
    ∧ _state_definitions (self s') = _state_definitions (self s)
    ∧ _state (self s') ∈ name <$> _state_definitions (self s').
Proof.
  intros H. cbn. unfold timer_elapses.
  destruct (filter _ (timers (hass s))) as [|tm rest] eqn:E.
  - left. cbn [snd]. by rewrite task_runs_eq, (tidy_tasks _ H).
  - right.
    assert (tm ∈ filter (λ t, handle t = h) (timers (hass s))) as Hin.
    { rewrite E. by left. }
    apply list_elem_of_filter in Hin as [Hh Hin].
    destruct (tidy_timers _ H tm Hin) as [Hu Htgt].
    pose proof (tidy_cancelled _ H) as Hc. rewrite Hu, Hh in Hc. cbn in Hc.
    run_m. rewrite task_runs_eq. cbn. rewrite Hc, (tidy_tasks _ H). cbn.
    split; [|done]. destruct H as [Hl _ Hk _ _]. by apply tidy_idle.
Qed.

Lemma tidy_run host ops : prompt ops → ∀ s, tidy s → tidy (run host ops s).
Proof.
  induction 1 as [|h ops _ IH|trig tid ops _ IH|st ops _ IH|ops _ IH
                  |cfg ops _ IH|eid last ops _ IH]; intros s Hs.
  - done.
  - change (run host (TimerElapses h :: TaskRuns :: ops) s)
      with (run host ops (run host [TimerElapses h; TaskRuns] s)).
    apply IH. by destruct (fire_registered host h s Hs) as [->|[? _]].
  - cbn. apply IH. by apply tidy_trigger.
  - cbn. apply IH. by apply tidy_set_state.
  - cbn. apply IH. rewrite async_reset_eq. by apply tidy_set_state.
  - cbn. apply IH. by apply tidy_apply_config.
  - cbn [run foldl]. apply IH. by apply tidy_added_to_hass.
Qed.

Lemma sound_boot oid initial states transitions :
  well_referenced initial states transitions →
  sound (boot (__init__ oid initial states transitions)).
Proof. intros [Hi Ht]. split; [apply tidy_boot|done|done]. Qed.

Lemma sound_trigger host trig tid s :
  sound s → sound (async_trigger host trig tid s).2.
Proof.
  intros [Htidy [Hi Ht] Hs]. split; [by apply tidy_trigger| |].
  all: destruct (matching (_transitions (self s)) (_state (self s)) trig)
    as [t|] eqn:Hm;
    [destruct (decide (_eval_guard host <$> guard_expr t = Some false))
       as [Hg|Hg];
     [rewrite (async_trigger_guard_false _ _ _ _ _ Hm Hg)
     |rewrite (async_trigger_commit _ _ _ _ _ Hm Hg)]
    |rewrite (async_trigger_no_match _ _ _ _ Hm)]; try done.
  cbn. apply Ht. apply matching_Some in Hm as (pre & post & -> & _).
  apply elem_of_app. right. by left.
Qed.

Lemma sound_set_state state s : sound s → sound (async_set_state state s).2.
Proof.
  intros [Htidy Hc Hs]. split; [by apply tidy_set_state| |].
  all: rewrite async_set_state_eq; destruct (declared _ state) eqn:Hd;
    try done.
  cbn. by apply (tidy_declared _ _ Htidy).
Qed.

Lemma sound_apply_config cfg s :
  sound s → config_ok (self s) cfg → sound (async_apply_config cfg s).2.
Proof.
  intros [Htidy Hc Hs] [Hi Ht]. split; [by apply tidy_apply_config| |].
  all: rewrite async_apply_config_eq; cbn; try done.
  destruct (declared _ _) eqn:Hd; [|done].
  by apply declared_state_lookup_of in Hd.
Qed.

Lemma sound_added_to_hass host eid last s :
  sound s → sound (exec host (AddedToHass eid last) s).
Proof.
  intros [Htidy Hc Hs]. split; [by apply tidy_added_to_hass| |].
  all: cbn [exec]; run_m; rewrite async_added_to_hass_eq; cbn; try done.
  destruct last as [st|]; [|done].
  destruct (negb _); cbn; [|done].
  destruct (declared _ st) eqn:Hd; [|done].
  by apply (tidy_declared _ _ Htidy) in Hd.
Qed.

Lemma sound_fire host h s :
  sound s → sound (run host [TimerElapses h; TaskRuns] s).
Proof.
  intros [Htidy Hc Hs].
  destruct (fire_registered host h s Htidy)
    as [->|(Ht' & Hi & Hts & Hsd & Hst)]; [done|].
  split; [done| |done]. by rewrite Hi, Hts, Hsd.
Qed.

Lemma sound_run host ops :
  prompt ops → ∀ s, sound s → accepted host ops s → sound (run host ops s).
Proof.
  induction 1 as [|h ops _ IH|trig tid ops _ IH|st ops _ IH|ops _ IH
                  |cfg ops _ IH|eid last ops _ IH]; intros s Hs Hacc.
  - done.
  - change (run host (TimerElapses h :: TaskRuns :: ops) s)
      with (run host ops (run host [TimerElapses h; TaskRuns] s)).
    apply IH; [by apply sound_fire|]. cbn in Hacc. tauto.
  - cbn in *. apply IH; [by apply sound_trigger|tauto].
  - cbn in *. apply IH; [by apply sound_set_state|tauto].
  - cbn in *. apply IH; [|tauto].
    rewrite async_reset_eq. by apply sound_set_state.
  - cbn in *. apply IH; [|tauto]. apply sound_apply_config; tauto.
  - cbn [run foldl] in *. apply IH; [|cbn in Hacc; tauto].
    by apply sound_added_to_hass.
Qed.

(** ** The loader's log and well-referenced configurations *)

Lemma log_loop_dangling names seen ts :
  Forall (λ i, dangling i = false) (log_loop names seen ts)
  ↔ ∀ t, t ∈ ts → dest t ∈ names.
Proof.
  revert seen. induction ts as [|t ts IH]; intros seen; cbn.
  - split; [by intros _ ? ?%elem_of_nil|]. intros _. apply Forall_nil_2.
  - rewrite !Forall_app, IH. split.
    + intros (_ & _ & Hd & Hrest) u [Hu|Hu]%elem_of_cons; [|by apply Hrest].
      subst u. case_bool_decide as E; [done|].
      by inversion Hd.
    + intros H. split; [|split; [|split]].
      * destruct (decide _); [by apply Forall_singleton | apply Forall_nil_2].
      * destruct (_ && _); [by apply Forall_singleton | apply Forall_nil_2].
      * rewrite bool_decide_eq_true_2; [apply Forall_nil_2|].
        apply H. by left.
      * intros u Hu. apply H. by right.
Qed.

(** A configuration is well referenced exactly when the loader logs
    neither an unknown initial state nor an invalid [dest]. *)
Lemma well_referenced_logged initial states transitions :
  well_referenced initial states transitions
  ↔ Forall (λ i, dangling i = false)
           (async_setup_issues initial states transitions).
Proof.
  unfold well_referenced, async_setup_issues, _log_transition_issues.
  rewrite Forall_app, log_loop_dangling. unfold _state_names. split.
  - intros [Hi Ht]. split.
    + rewrite bool_decide_eq_true_2; [apply Forall_nil_2|].
      by apply elem_of_list_to_set.
    + intros t Hin. apply elem_of_list_to_set. by apply Ht.
  - intros [Hi Ht]. split.
    + case_bool_decide as E.
      * by apply elem_of_list_to_set in E.
      * by inversion Hi.
    + intros t Hin. specialize (Ht t Hin).
      by apply elem_of_list_to_set in Ht.
Qed.

(** C4, as the code has it. In every state reached by [trigger],
    [set_state], [reset], [apply_config], restore and timeouts firing
    un-superseded: a timeout that fires sets [current_state] to a declared
    state, whatever the configuration; and when the initial state and
    every transition's [dest] of the constructor's configuration, and of
    every configuration applied later, name declared states (what the
    loader checks and only logs), [current_state] is a key of
    [state_definitions]. [apply_config] keeps a current state that the new
    configuration still declares and resets a removed one to
    [initial_state] before it returns. *)
Theorem current_state_declared (host : Host) (oid initial : string)
    (states : list StateDef) (transitions : list Transition) (ops : list Op) :
  prompt ops →
  let s0 := boot (__init__ oid initial states transitions) in
  let s := run host ops s0 in
  let known x :=
    _state (self x) ∈ available_states (extra_state_attributes (self x)) in
  (∀ h, let s' := run host [TimerElapses h; TaskRuns] s in s' = s ∨ known s')
  ∧ (well_referenced initial states transitions → accepted host ops s0 →
     known s ∧ is_Some (_state_lookup (self s) !! _state (self s)))
  ∧ ∀ cfg, let e := self (exec host (ApplyConfig cfg) s) in
           if declared (_state_lookup e) (_state (self s))
           then _state e = _state (self s)
           else _state e = _initial e.
Proof.
  intros Hp. cbn zeta. split; [|split].
  - intros h.
    pose proof (tidy_run host ops Hp _ (tidy_boot oid initial states transitions))
      as Ht.
    destruct (fire_registered host h _ Ht) as [E|(_ & _ & _ & _ & Hin)];
      [by left|by right].
  - intros Hwr Hacc.
    pose proof (sound_run host ops Hp _ (sound_boot oid _ _ _ Hwr) Hacc)
      as [Ht _ Hs].
    split; [done|]. apply (tidy_declared _ _ Ht) in Hs.
    by apply bool_decide_eq_true in Hs.
  - intros cfg. cbn [exec]. rewrite async_apply_config_eq. cbn.
    by destruct (declared _ _).
Qed.

Lemma current_state_declared_witness :
  let ops := [Trigger "start" "u1"; Trigger "go" "u2"; TimerElapses 0;
              TaskRuns;
              ApplyConfig
                {| cfg_initial := Some "running";
                   cfg_states :=
                     Some [ {| name := "running"; description := "" |} ];
                   cfg_transitions := None |};
              Reset] in
  let s0 := boot (__init__ "washer" "idle" demo_states loop_transitions) in
  let s := run demo_host ops s0 in
  let known x :=
    _state (self x) ∈ available_states (extra_state_attributes (self x)) in
  prompt ops
  ∧ well_referenced "idle" demo_states loop_transitions
  ∧ accepted demo_host ops s0
  ∧ (∀ h, let s' := run demo_host [TimerElapses h; TaskRuns] s in
          s' = s ∨ known s')
  ∧ known s
  ∧ is_Some (_state_lookup (self s) !! _state (self s)).
Proof.
  cbn zeta.
  match goal with |- prompt ?ops ∧ _ => assert (prompt ops) as Hp end.
  { repeat constructor. }
  assert (well_referenced "idle" demo_states loop_transitions) as Hwr.
  { apply well_referenced_logged. vm_compute. repeat constructor. }
  match goal with |- _ ∧ _ ∧ ?A ∧ _ => assert A as Hacc end.
  { cbn [accepted]. do 4 (split; [exact I|]).
    split; [|split; [exact I|exact I]].
    apply well_referenced_logged. vm_compute. repeat constructor. }
  destruct (current_state_declared demo_host "washer" "idle" demo_states
              loop_transitions _ Hp) as (Hfire & Hknown & _).
  destruct (Hknown Hwr Hacc) as [Hk Hsome].
  split; [exact Hp|]. split; [exact Hwr|]. split; [exact Hacc|].
  split; [exact Hfire|]. split; [exact Hk|exact Hsome].
Defined.

(** C4 fails as stated: on a freshly constructed entity, whose current
    state is declared, [trigger("kick")] answers [true] and sets
    [current_state] to ["broken"], which is no key of [state_definitions];
    no configuration was swapped. *)
Lemma trigger_reaches_undeclared_state :
  let r := async_trigger demo_host "kick" "u1" stray in
  async_setup_issues "closed" stray_states stray_transitions
  = [InvalidDest {| trigger := "kick"; source := "closed"; dest := "broken";
                    guard_expr := None; timeout := None; actions := [] |}]
  ∧ declared (_state_lookup (self stray)) (_state (self stray)) = true
  ∧ r.1 = true
  ∧ _state (self r.2) = "broken"
  ∧ declared (_state_lookup (self r.2)) (_state (self r.2)) = false
  ∧ _state (self r.2) ∉ available_states (extra_state_attributes (self r.2)).
Proof.
  vm_compute. repeat split.
  intros H. repeat (apply elem_of_cons in H as [H|H]; [discriminate|]).
  by apply elem_of_nil in H.
Qed.

(** ** Superseded timeouts *)

(** While every timeout task runs as soon as its timer has elapsed, at
    most one timer is registered and its handle is the stored one. *)
Lemma prompt_run_single_timer host oid initial states transitions ops :
  prompt ops →
  let s := run host ops (boot (__init__ oid initial states transitions)) in
  length (timers (hass s)) ≤ 1
  ∧ ∀ tm, tm ∈ timers (hass s) → _timeout_unsub (self s) = Some (handle tm).
Proof.
  intros Hp. cbn zeta.
  pose proof (tidy_run host ops Hp _ (tidy_boot oid initial states transitions))
    as Ht.
  split; [apply (tidy_one _ Ht)|].
  intros tm Htm. by destruct (tidy_timers _ Ht tm Htm).
Qed.

(** [_timeout_transition] does not look at [_timeout_unsub]: a task that
    waits for the lock commits whatever happened since its timer
    elapsed. *)
Lemma waiting_task_commits host s d rest :
  tasks (hass s) = d :: rest →
  _state (self (exec host TaskRuns s)) = d
  ∧ _recent (self (exec host TaskRuns s))
    = _recent (self s) ++
        [{| h_transition_id := None; h_trigger := "timeout";
            h_from := _state (self s); h_to := d |}]
  ∧ _timeout_unsub (self (exec host TaskRuns s)) = None.
Proof. intros E. cbn [exec]. rewrite task_runs_eq, E. by cbn. Qed.

(** C2, at the failing run. The timer armed by ["go"] elapses, and before
    its task gets the lock [set_state("running")] cancels the timeout: no
    handle is stored, no timer is registered. The task then runs all the
    same, moves the entity to ["idle"] and records a [timeout] entry. With
    a ["go"] in between, the late task also clears the handle of the newer
    timeout, so that the next ["go"] leaves two timers registered. *)
Theorem superseded_timeout_still_commits :
  let armed := run demo_host [Trigger "go" "u2"] running in
  let superseded :=
    run demo_host [TimerElapses 0; SetState "running"] armed in
  let fired := exec demo_host TaskRuns superseded in
  let twice :=
    run demo_host [TimerElapses 0; SetState "running"; Trigger "go" "u3";
                   TaskRuns; SetState "running"; Trigger "go" "u4"] armed in
  _timeout_unsub (self armed) = Some 0
  ∧ _timeout_unsub (self superseded) = None
  ∧ timers (hass superseded) = []
  ∧ _state (self superseded) = "running"
  ∧ _state (self fired) = "idle"
  ∧ _recent (self fired)
    = _recent (self superseded) ++
        [{| h_transition_id := None; h_trigger := "timeout";
            h_from := "running"; h_to := "idle" |}]
  ∧ handle <$> timers (hass twice) = [1; 2]
  ∧ _timeout_unsub (self twice) = Some 2.
Proof. vm_compute. by repeat split. Qed.


(** * Further properties of the code *)

(** ** [available_triggers] *)

Lemma str_lt_le a b : str_lt a b ↔ String.le a b ∧ a ≠ b.
Proof.
  unfold str_lt, String.le, String.leb. split.
  - intros H. rewrite H. split; [done|]. intros ->.
    pose proof H as H'. rewrite String.compare_antisym, H in H'.
    discriminate.
  - intros [Hle Hne]. destruct (String.compare a b) eqn:E; [|done|done].
    by apply String.compare_eq_iff in E.
Qed.

#[local] Instance str_lt_trans : Transitive str_lt.
Proof.
  intros a b c [Hab Hne1]%str_lt_le [Hbc Hne2]%str_lt_le. apply str_lt_le.
  split; [by etrans|]. intros ->. apply Hne1. by apply (anti_symm String.le).
Qed.

Lemma str_lt_irrefl a : ¬ str_lt a a.
Proof. intros [_ H]%str_lt_le. by apply H. Qed.

Lemma elem_of_insert_sorted x y l :
  y ∈ insert_sorted x l ↔ y = x ∨ y ∈ l.
Proof.
  induction l as [|z l IH]; cbn.
  - rewrite list_elem_of_singleton, elem_of_nil. tauto.
  - destruct (String.compare x z) eqn:E.
    + apply String.compare_eq_iff in E as ->. rewrite elem_of_cons. tauto.
    + rewrite elem_of_cons. tauto.
    + rewrite !elem_of_cons, IH. tauto.
Qed.

Lemma elem_of_sorted_set y l : y ∈ sorted_set l ↔ y ∈ l.
Proof.
  induction l as [|x l IH]; cbn; [done|].
  rewrite elem_of_insert_sorted, IH, elem_of_cons. tauto.
Qed.

Lemma insert_sorted_hd x y l :
  str_lt y x → HdRel str_lt y l → HdRel str_lt y (insert_sorted x l).
Proof.
  intros Hyx Hl. destruct l as [|z l]; cbn; [by constructor|].
  destruct (String.compare x z); [done|by constructor|].
  constructor. by apply HdRel_inv in Hl.
Qed.

Lemma insert_sorted_sorted x l :
  Sorted str_lt l → Sorted str_lt (insert_sorted x l).
Proof.
  induction l as [|y l IH]; cbn; intros Hs.
  - by repeat constructor.
  - destruct (String.compare x y) eqn:E; [done| |].
    + constructor; [done|]. by constructor.
    + apply Sorted_inv in Hs as [Hs Hhd]. constructor; [by apply IH|].
      apply insert_sorted_hd; [|done].
      unfold str_lt. rewrite String.compare_antisym, E. done.
Qed.

Lemma sorted_set_sorted l : Sorted str_lt (sorted_set l).
Proof.
  induction l as [|x l IH]; cbn; [constructor|].
  by apply insert_sorted_sorted.
Qed.

Lemma sorted_set_NoDup l : NoDup (sorted_set l).
Proof.
  pose proof (Sorted_StronglySorted str_lt _ (sorted_set_sorted l)) as H.
  induction H as [|x k Hk IH Hall]; [constructor|].
  constructor; [|done]. intros Hin.
  rewrite Forall_forall in Hall. by apply (str_lt_irrefl x), Hall.
Qed.

(** X1. [available_triggers] is strictly increasing, hence free of
    duplicates, and lists exactly the triggers for which the resolution of
    [async_trigger] finds a transition in the current state. *)
Theorem available_triggers_firing (e : FSMEntity) :
  let triggers := available_triggers (extra_state_attributes e) in
  Sorted str_lt triggers
  ∧ NoDup triggers
  ∧ ∀ trig, trig ∈ triggers
            ↔ is_Some (matching (_transitions e) (_state e) trig).
Proof.
  cbn. split; [apply sorted_set_sorted|]. split; [apply sorted_set_NoDup|].
  intros trig. rewrite elem_of_sorted_set, list_elem_of_fmap. split.
  - intros (t & -> & [Hsrc Hin]%list_elem_of_filter).
    destruct (matching _ _ _) eqn:E; [done|].
    rewrite matching_None, Forall_forall in E. by destruct (E t Hin).
  - intros [t Ht]. apply matching_Some in Ht as (pre & post & E & [Htr Hsrc] & _).
    exists t. split; [done|]. apply list_elem_of_filter. split; [done|].
    rewrite E. apply elem_of_app. right. by left.
Qed.

(** ** [_run_actions] *)

Lemma string_app_cons c s t : String c s +:+ t = String c (s +:+ t).
Proof. reflexivity. Qed.

Lemma split_dot_Some s d r :
  split_dot s = Some (d, r) ↔ s = d +:+ "." +:+ r ∧ split_dot d = None.
Proof.
  revert d r. induction s as [|c s IH]; intros d r; cbn.
  - split; [done|]. by intros [? _]; destruct d.
  - destruct (Ascii.eqb c ".") eqn:Ec.
    + apply Ascii.eqb_eq in Ec as ->. split.
      * by intros [= <- <-].
      * intros [E Hd]. destruct d as [|c' d]; [by injection E as ->|].
        rewrite string_app_cons in E. injection E as <- _. by cbn in Hd.
    + assert (∀ d0 r0, String c s = d0 +:+ "." +:+ r0 →
                       split_dot d0 = None →
                       ∃ d1, d0 = String c d1 ∧ split_dot s = Some (d1, r0))
        as Hstep.
      { intros d0 r0 E Hd0. destruct d0 as [|c' d0].
        - injection E as -> _. by rewrite Ascii.eqb_refl in Ec.
        - rewrite string_app_cons in E. injection E as <- E.
          exists d0. split; [done|]. apply IH. split; [done|].
          cbn in Hd0. rewrite Ec in Hd0.
          destruct (split_dot d0) as [[? ?]|]; done. }
      destruct (split_dot s) as [[d' r']|] eqn:Es.
      * pose proof (proj1 (IH d' r') eq_refl) as [E Hd]. split.
        -- intros [= <- <-]. split; [by rewrite string_app_cons, <- E|].
           cbn. by rewrite Ec, Hd.
        -- intros [E' Hd']. destruct (Hstep d r E' Hd') as (d1 & -> & [= <- <-]).
           done.
      * split; [done|]. intros [E' Hd'].
        by destruct (Hstep d r E' Hd') as (d1 & _ & [=]).
Qed.

Lemma split_dot_None s :
  split_dot s = None ↔ ∀ d r, s ≠ d +:+ "." +:+ r.
Proof.
  induction s as [|c s IH]; cbn.
  - split; [|done]. intros _ d r. by destruct d.
  - destruct (Ascii.eqb c ".") eqn:Ec.
    + apply Ascii.eqb_eq in Ec as ->. split; [done|].
      intros H. by destruct (H "" s).
    + apply Ascii.eqb_neq in Ec. destruct (split_dot s) as [[d' r']|] eqn:Es.
      * apply split_dot_Some in Es as [-> _]. split; [done|].
        intros H. by destruct (H (String c d') r').
      * split; [|done]. intros _ d r E.
        destruct d as [|c' d]; [by injection E as -> _|].
        rewrite string_app_cons in E. injection E as <- E.
        by apply (proj1 IH eq_refl d r).
Qed.

(** X2. [_run_actions] answers one status per action, in order and under
    the action's own service name. An action is [ok] exactly when its
    service reads [domain.service], the domain being the text before the
    first dot, and the host's [async_call] for that pair does not raise; a
    service without a dot is never dispatched and is reported as
    [bad_service]; a raised exception is reported with its text. *)
Theorem run_actions_statuses (host : Host) (acts : list Action) :
  length (_run_actions host acts) = length acts
  ∧ ∀ i act, acts !! i = Some act →
      ∃ st, _run_actions host acts !! i = Some st
        ∧ as_service st = service act
        ∧ (as_ok st = true ↔ as_error st = None)
        ∧ (as_ok st = true ↔
           ∃ d r, service act = d +:+ "." +:+ r ∧ split_dot d = None
                  ∧ async_call host d r (data act) = None)
        ∧ ((∀ d r, service act ≠ d +:+ "." +:+ r) →
           as_error st = Some "bad_service")
        ∧ (∀ d r msg, service act = d +:+ "." +:+ r → split_dot d = None →
                      async_call host d r (data act) = Some msg →
                      as_error st = Some msg).
Proof.
  unfold _run_actions. split; [apply length_fmap|].
  intros i act Hi. exists (run_action host act).
  split; [by rewrite list_lookup_fmap, Hi|].
  unfold run_action. destruct (split_dot (service act)) as [[d r]|] eqn:Es.
  - apply split_dot_Some in Es as [Es Hd].
    assert (∀ d' r', service act = d' +:+ "." +:+ r' → split_dot d' = None →
                     d' = d ∧ r' = r) as Huniq.
    { intros d' r' E' Hd'.
      pose proof (proj2 (split_dot_Some (service act) d r) (conj Es Hd)) as H1.
      pose proof (proj2 (split_dot_Some (service act) d' r') (conj E' Hd'))
        as H2.
      rewrite H1 in H2. by injection H2 as <- <-. }
    destruct (async_call host d r (data act)) as [msg|] eqn:Ec; cbn.
    + split; [done|]. split; [done|]. split.
      * split; [done|]. intros (d' & r' & E' & Hd' & Hc).
        destruct (Huniq d' r' E' Hd') as [-> ->]. congruence.
      * split; [intros H; by destruct (H d r)|].
        intros d' r' msg' E' Hd' Hc.
        destruct (Huniq d' r' E' Hd') as [-> ->]. congruence.
    + split; [done|]. split; [done|]. split.
      * split; [|done]. intros _. by exists d, r.
      * split; [intros H; by destruct (H d r)|].
        intros d' r' msg' E' Hd' Hc.
        destruct (Huniq d' r' E' Hd') as [-> ->]. congruence.
  - cbn. split; [done|]. split; [done|].
    pose proof (proj1 (split_dot_None _) Es) as Hno. split.
    + split; [done|]. intros (d & r & E & _). by destruct (Hno d r).
    + split; [done|]. intros d r msg E. by destruct (Hno d r).
Qed.

Lemma eval_guard_with_services host call g :
  _eval_guard (with_services host call) g = _eval_guard host g.
Proof. reflexivity. Qed.

(** X3. Failing actions neither abort nor roll back a transition: with
    another service registry, whatever its calls answer, [async_trigger]
    gives the same answer, the same entity (state, history, stored
    handle), the same timers and the same sequence of event kinds. *)
Theorem actions_never_abort (host : Host)
    (call : string → string → list (string * string) → option string)
    (trig tid : string) (s : Sys) :
  let r := async_trigger host trig tid s in
  let r' := async_trigger (with_services host call) trig tid s in
  r'.1 = r.1
  ∧ self r'.2 = self r.2
  ∧ timers (hass r'.2) = timers (hass r.2)
  ∧ next_handle (hass r'.2) = next_handle (hass r.2)
  ∧ ha_state (hass r'.2) = ha_state (hass r.2)
  ∧ event_type <$> bus (hass r'.2) = event_type <$> bus (hass r.2).
Proof.
  cbn zeta.
  destruct (matching (_transitions (self s)) (_state (self s)) trig)
    as [t|] eqn:Hm.
  - destruct (decide (_eval_guard host <$> guard_expr t = Some false))
      as [Hg|Hg].
    + rewrite (async_trigger_guard_false host _ _ _ _ Hm Hg).
      by rewrite (async_trigger_guard_false (with_services host call)
                    _ _ _ _ Hm Hg).
    + rewrite (async_trigger_commit host _ _ _ _ Hm Hg).
      rewrite (async_trigger_commit (with_services host call) _ _ _ _ Hm Hg).
      cbn. by rewrite !fmap_app.
  - rewrite (async_trigger_no_match host _ _ _ Hm).
    by rewrite (async_trigger_no_match (with_services host call) _ _ _ Hm).
Qed.

Example actions_never_abort_demo :
  let r := async_trigger demo_host "go" "u2" running in
  let r' := async_trigger failing_host "go" "u2" running in
  self r'.2 = self r.2
  ∧ (as_ok <$> _run_actions demo_host
       [ {| service := "light.turn_on"; data := [] |};
         {| service := "nodot"; data := [] |} ]) = [true; false]
  ∧ (as_error <$> _run_actions failing_host
       [ {| service := "light.turn_on"; data := [] |};
         {| service := "nodot"; data := [] |} ])
    = [Some "ServiceNotFound"; Some "bad_service"].
Proof. by vm_compute. Qed.

(** ** [async_apply_config] *)

(** X4. Hot reload is idempotent: applying the same configuration a second
    time changes nothing any more. It never touches the history nor emits
    an event, and it always leaves the entity without pending timeout: the
    stored handle is cleared and its timer unregistered, and none is armed
    again. *)
Theorem apply_config_idempotent (cfg : Config) (s : Sys) :
  let s1 := (async_apply_config cfg s).2 in
  (async_apply_config cfg s1).2 = s1
  ∧ _recent (self s1) = _recent (self s)
  ∧ bus (hass s1) = bus (hass s)
  ∧ _timeout_unsub (self s1) = None
  ∧ timers (hass s1) = cancelled (_timeout_unsub (self s)) (timers (hass s))
  ∧ next_handle (hass s1) = next_handle (hass s).
Proof.
  cbn zeta. rewrite (async_apply_config_eq cfg s). cbn zeta. cbn [snd].
  split; [|done]. rewrite async_apply_config_eq. cbn.
  destruct cfg as [[i|] [sd|] [ts|]]; cbn;
    repeat (match goal with
            | |- context [declared ?l ?k] => destruct (declared l k) eqn:?
            end; cbn);
    first [done | congruence].
Qed.

(** X5. Reloading a configuration that changes nothing, be it empty or a
    copy of the current one, leaves an entity whose current state is
    declared as it is, except that a pending timeout is dropped. *)
Theorem apply_config_unchanged (cfg : Config) (s : Sys) :
  _state_lookup (self s) = state_lookup_of (_state_definitions (self s)) →
  declared (_state_lookup (self s)) (_state (self s)) = true →
  cfg_initial cfg = None ∨ cfg_initial cfg = Some (_initial (self s)) →
  cfg_states cfg = None
    ∨ cfg_states cfg = Some (_state_definitions (self s)) →
  cfg_transitions cfg = None
    ∨ cfg_transitions cfg = Some (_transitions (self s)) →
  self (async_apply_config cfg s).2 = with_timeout_unsub None (self s).
Proof.
  intros Hl Hd Hi Hsd Hts. rewrite async_apply_config_eq. cbn.
  assert (default (_initial (self s)) (cfg_initial cfg) = _initial (self s))
    as ->.
  { by destruct Hi as [-> | ->]. }
  assert (default (_state_definitions (self s)) (cfg_states cfg)
          = _state_definitions (self s)) as ->.
  { by destruct Hsd as [-> | ->]. }
  assert (default (_transitions (self s)) (cfg_transitions cfg)
          = _transitions (self s)) as ->.
  { by destruct Hts as [-> | ->]. }
  rewrite <- Hl, Hd. destruct (self s). cbn in *. by rewrite Hl.
Qed.

(** After ["go"] the example holds a pending timeout; an empty reload
    drops it and changes nothing else. *)
Lemma apply_config_unchanged_witness :
  let s := run demo_host [Trigger "go" "u2"] running in
  let cfg := {| cfg_initial := None; cfg_states := Some demo_states;
                cfg_transitions := None |} in
  _timeout_unsub (self s) = Some 0
  ∧ self (async_apply_config cfg s).2 = with_timeout_unsub None (self s).
Proof.
  cbn zeta. split; [reflexivity|].
  apply (apply_config_unchanged
           {| cfg_initial := None; cfg_states := Some demo_states;
              cfg_transitions := None |}
           (run demo_host [Trigger "go" "u2"] running)).
  - reflexivity.
  - reflexivity.
  - by left.
  - by right.
  - by left.
Defined.

(** ** The state written to the host *)

Lemma timer_elapses_ha_state h s :
  ha_state (hass (timer_elapses h s).2) = ha_state (hass s).
Proof.
  unfold timer_elapses.
  destruct (filter _ (timers (hass s))); [done|]. by run_m.
Qed.

(** Every operation either leaves the entity and the written state alone
    or writes the state it leaves the entity in. *)
Lemma exec_writes host o s :
  (self (exec host o s) = self s
   ∧ ha_state (hass (exec host o s)) = ha_state (hass s))
  ∨ ha_state (hass (exec host o s)) = Some (_state (self (exec host o s))).
Proof.
  destruct o as [trig tid|state| |cfg|eid last|h|]; cbn [exec].
  - destruct (matching (_transitions (self s)) (_state (self s)) trig)
      as [t|] eqn:Hm.
    + destruct (decide (_eval_guard host <$> guard_expr t = Some false))
        as [Hg|Hg].
      * rewrite (async_trigger_guard_false _ _ _ _ _ Hm Hg). by left.
      * rewrite (async_trigger_commit _ _ _ _ _ Hm Hg). by right.
    + rewrite (async_trigger_no_match _ _ _ _ Hm). by left.
  - rewrite async_set_state_eq. destruct (declared _ state); [by right|by left].
  - rewrite async_reset_eq, async_set_state_eq. cbn [snd].
    destruct (declared _ _); [by right|by left].
  - rewrite async_apply_config_eq. by right.
  - run_m. rewrite async_added_to_hass_eq. by right.
  - left. by rewrite timer_elapses_self, timer_elapses_ha_state.
  - rewrite task_runs_eq. cbn [snd].
    destruct (tasks (hass s)); [by left|by right].
Qed.

(** X6. The state held by the host is never stale: after any sequence of
    operations, late timeout tasks included, the state last written by
    [async_write_ha_state] is the current state, unless nothing was
    written yet, and then the entity is still as constructed. *)
Theorem written_state_current (host : Host) (ops : list Op) (e : FSMEntity) :
  let s := run host ops (boot e) in
  ha_state (hass s) = Some (_state (self s))
  ∨ (ha_state (hass s) = None ∧ self s = e).
Proof.
  cbn zeta. induction ops as [|o ops IH] using rev_ind; [by right|].
  rewrite run_snoc.
  destruct (exec_writes host o (run host ops (boot e))) as [[Hs Hw]|Hw];
    [|by left].
  rewrite Hs, Hw. done.
Qed.

(** X7. Restart round trip. When the host hands the state it last received
    back to a freshly constructed entity with the same configuration,
    [async_added_to_hass] brings the entity back into its former current
    state exactly when something had been written and that state is a
    non-empty declared name; in every other case the entity starts in its
    initial state. *)
Theorem restart_restores (host : Host) (ops : list Op) (e : FSMEntity)
    (oid eid : string) :
  let s := run host ops (boot e) in
  let fresh := __init__ oid (_initial (self s)) (_state_definitions (self s))
                 (_transitions (self s)) in
  let restarted := exec host (AddedToHass eid (ha_state (hass s))) (boot fresh) in
  _state (self restarted)
  = if bool_decide (is_Some (ha_state (hass s)))
       && negb (bool_decide (_state (self s) = ""))
       && declared (_state_lookup fresh) (_state (self s))
    then _state (self s)
    else _initial (self s).
Proof.
  cbn zeta. cbn [exec]. run_m. rewrite async_added_to_hass_eq. cbn.
  assert (ha_state (hass (run host ops (boot e)))
          = Some (_state (self (run host ops (boot e))))
          ∨ ha_state (hass (run host ops (boot e))) = None) as [-> | ->].
  { induction ops as [|o ops IH] using rev_ind; [by right|].
    rewrite run_snoc.
    destruct (exec_writes host o (run host ops (boot e))) as [[Hs Hw]|Hw];
      [|by left].
    by rewrite Hs, Hw. }
  - rewrite (bool_decide_eq_true_2 (is_Some _)) by eauto. cbn.
    by destruct (negb _ && _).
  - by rewrite (bool_decide_eq_false_2 (is_Some _)) by (by intros [? ?]).
Qed.

(** ** Declared states *)

Lemma state_lookup_of_last states key :
  state_lookup_of states !! key
  = last (filter (λ sd, name sd = key) states).
Proof.
  induction states as [|sd states IH] using rev_ind; [done|].
  rewrite state_lookup_of_snoc, filter_app.
  destruct (decide (name sd = key)) as [<-|Hne].
  - rewrite lookup_insert_eq, filter_singleton_True by done.
    by rewrite last_snoc.
  - rewrite lookup_insert_ne by done.
    rewrite filter_singleton_False by done. by rewrite app_nil_r.
Qed.

(** X8. A state name declared more than once resolves to its last
    declaration: [_state_lookup] maps a name to the last [StateDef] that
    carries it, so the description shown for the current state of a
    constructed entity is that of the last declaration of its name, and
    empty when the name is not declared. *)
Theorem state_lookup_last_wins (oid initial : string)
    (states : list StateDef) (transitions : list Transition) (key : string) :
  let e := __init__ oid initial states transitions in
  _state_lookup e !! key = last (filter (λ sd, name sd = key) states)
  ∧ (key ∉ name <$> states → _state_lookup e !! key = None)
  ∧ current_state_description (extra_state_attributes e)
    = from_option description ""
        (last (filter (λ sd, name sd = initial) states)).
Proof.
  cbn. rewrite !state_lookup_of_last. split; [done|]. split; [|done].
  intros Hnot. destruct (last _) as [sd|] eqn:E; [|done].
  apply last_Some in E as [l' E].
  assert (sd ∈ filter (λ sd, name sd = key) states) as Hin.
  { rewrite E. apply elem_of_app. right. by left. }
  apply list_elem_of_filter in Hin as [<- Hin].
  destruct Hnot. apply list_elem_of_fmap. by exists sd.
Qed.

Example state_lookup_last_wins_demo :
  let states := [ {| name := "idle"; description := "first" |};
                  {| name := "busy"; description := "" |};
                  {| name := "idle"; description := "second" |} ] in
  let e := __init__ "x" "idle" states [] in
  current_state_description (extra_state_attributes e) = "second"
  ∧ available_states (extra_state_attributes e) = ["idle"; "busy"; "idle"].
Proof. by vm_compute. Qed.

(** Every operation keeps [_state_lookup] the dict of
    [_state_definitions]. *)
Lemma exec_lookup host o s :
  _state_lookup (self s) = state_lookup_of (_state_definitions (self s)) →
  _state_lookup (self (exec host o s))
  = state_lookup_of (_state_definitions (self (exec host o s))).
Proof.
  intros H. destruct o as [trig tid|state| |cfg|eid last|h|]; cbn [exec].
  - destruct (matching (_transitions (self s)) (_state (self s)) trig)
      as [t|] eqn:Hm.
    + destruct (decide (_eval_guard host <$> guard_expr t = Some false))
        as [Hg|Hg].
      * by rewrite (async_trigger_guard_false _ _ _ _ _ Hm Hg).
      * by rewrite (async_trigger_commit _ _ _ _ _ Hm Hg).
    + by rewrite (async_trigger_no_match _ _ _ _ Hm).
  - rewrite async_set_state_eq. by destruct (declared _ state).
  - rewrite async_reset_eq, async_set_state_eq. by destruct (declared _ _).
  - by rewrite async_apply_config_eq.
  - run_m. by rewrite async_added_to_hass_eq.
  - by rewrite timer_elapses_self.
  - rewrite task_runs_eq. cbn [snd]. by destruct (tasks (hass s)).
Qed.

(** X9. After any sequence of operations on a constructed entity, late
    timeout tasks included, [set_state] accepts exactly the names listed
    in [available_states], and restore accepts no other state either. *)
Theorem set_state_accepts_available (host : Host) (ops : list Op)
    (oid initial : string) (states : list StateDef)
    (transitions : list Transition) (state : string) :
  let s := run host ops (boot (__init__ oid initial states transitions)) in
  let listed := state ∈ available_states (extra_state_attributes (self s)) in
  ((async_set_state state s).1 = true ↔ listed)
  ∧ (∀ eid, _state (self (exec host (AddedToHass eid (Some state)) s)) = state →
            state = _state (self s) ∨ listed).
Proof.
  cbn zeta.
  set (s := run host ops (boot (__init__ oid initial states transitions))).
  assert (_state_lookup (self s) = state_lookup_of (_state_definitions (self s)))
    as Hl.
  { subst s. induction ops as [|o ops IH] using rev_ind; [done|].
    rewrite run_snoc. by apply exec_lookup. }
  assert (declared (_state_lookup (self s)) state = true
          ↔ state ∈ name <$> _state_definitions (self s)) as Hd.
  { rewrite Hl. apply declared_state_lookup_of. }
  split.
  - rewrite async_set_state_eq. cbn. rewrite <- Hd.
    by destruct (declared _ state).
  - intros eid. cbn [exec]. run_m. rewrite async_added_to_hass_eq. cbn.
    destruct (negb _); cbn; [|by left].
    destruct (declared _ state); [|by left]. intros _. right. by apply Hd.
Qed.

(** ** Events *)

Lemma started_succeeded_agree host e trig tid t k :
  k ∈ ["transition_id"; "trigger"; "from"; "to"] →
  is_Some (dict_get k (event_data (started_event host e trig tid t)))
  ∧ dict_get k (event_data (started_event host e trig tid t))
    = dict_get k (event_data (succeeded_event host e trig tid t)).
Proof.
  intros Hk. unfold started_event, succeeded_event, event_payload. cbn.
  destruct (_eval_guard host <$> guard_expr t) as [b|]; cbn.
  all: repeat (apply elem_of_cons in Hk as [->|Hk]; [cbn; eauto|]).
  all: by apply elem_of_nil in Hk.
Qed.

(** What one operation appends to the bus and to the history. *)
Lemma exec_bus_recent host o s :
  let s' := exec host o s in
  (bus (hass s') = bus (hass s)
   ∧ (_recent (self s') = _recent (self s)
      ∨ ∃ entry, _recent (self s') = _recent (self s) ++ [entry]
                 ∧ h_transition_id entry = None))
  ∨ (_recent (self s') = _recent (self s)
     ∧ ∃ ev, bus (hass s') = bus (hass s) ++ [ev]
             ∧ event_type ev = EVENT_TRANSITION_FAILED)
  ∨ (∃ entry ev1 ev2,
       _recent (self s') = _recent (self s) ++ [entry]
       ∧ is_Some (h_transition_id entry)
       ∧ bus (hass s') = bus (hass s) ++ [ev1; ev2]
       ∧ event_type ev1 = EVENT_TRANSITION_STARTED
       ∧ event_type ev2 = EVENT_TRANSITION_SUCCEEDED
       ∧ ∀ k, k ∈ ["transition_id"; "trigger"; "from"; "to"] →
              is_Some (dict_get k (event_data ev1))
              ∧ dict_get k (event_data ev1) = dict_get k (event_data ev2)).
Proof.
  cbn zeta. destruct o as [trig tid|state| |cfg|eid last|h|]; cbn [exec].
  - destruct (matching (_transitions (self s)) (_state (self s)) trig)
      as [t|] eqn:Hm.
    + destruct (decide (_eval_guard host <$> guard_expr t = Some false))
        as [Hg|Hg].
      * rewrite (async_trigger_guard_false _ _ _ _ _ Hm Hg).
        right. left. split; [done|]. by eexists.
      * rewrite (async_trigger_commit _ _ _ _ _ Hm Hg).
        right. right. do 3 eexists. split; [done|]. split; [by eexists|].
        split; [done|]. split; [done|]. split; [done|].
        intros k Hk. by apply started_succeeded_agree.
    + rewrite (async_trigger_no_match _ _ _ _ Hm).
      right. left. split; [done|]. by eexists.
  - left. rewrite async_set_state_eq. destruct (declared _ state); cbn.
    + split; [done|]. right. by eexists.
    + split; [done|]. by left.
  - left. rewrite async_reset_eq, async_set_state_eq. cbn [snd].
    destruct (declared _ _); cbn.
    + split; [done|]. right. by eexists.
    + split; [done|]. by left.
  - left. rewrite async_apply_config_eq. split; [done|]. by left.
  - left. run_m. rewrite async_added_to_hass_eq. split; [done|]. by left.
  - left. rewrite timer_elapses_self. split; [|by left].
    unfold timer_elapses. destruct (filter _ (timers (hass s))); [done|].
    by run_m.
  - left. rewrite task_runs_eq. cbn [snd]. destruct (tasks (hass s)); cbn.
    + split; [done|]. by left.
    + split; [done|]. right. by eexists.
Qed.

(** X10. On the bus of a constructed entity every [transition_started] is
    directly followed by the [transition_succeeded] of the same transition
    (same id, trigger, from and to), whatever the actions did, and every
    other event is a [transition_failed]; [set_state], [reset], reload,
    restore and timeouts emit nothing. There are as many
    [transition_succeeded] events as history entries that carry a
    transition id. *)
Theorem events_paired (host : Host) (ops : list Op) (oid initial : string)
    (states : list StateDef) (transitions : list Transition) :
  let s := run host ops (boot (__init__ oid initial states transitions)) in
  paired (bus (hass s))
  ∧ length (filter (λ ev, event_type ev = EVENT_TRANSITION_SUCCEEDED)
                   (bus (hass s)))
    = length (filter (λ entry, is_Some (h_transition_id entry))
                     (_recent (self s))).
Proof.
  cbn zeta. induction ops as [|o ops IH] using rev_ind.
  - cbn. split; [constructor|done].
  - rewrite run_snoc. destruct IH as [IHp IHn].
    destruct (exec_bus_recent host o
                (run host ops (boot (__init__ oid initial states transitions))))
      as [[-> Hr]|[[-> (ev & -> & Hev)]
                  |(entry & ev1 & ev2 & -> & Hid & -> & Hs & Hd & Hk)]].
    + split; [done|]. destruct Hr as [->|(entry & -> & Hid)]; [done|].
      rewrite filter_app.
      rewrite (filter_singleton_False _ _ [])
        by (intros [? Hx]; cbn in Hx; congruence).
      by rewrite app_nil_r.
    + split; [by apply paired_failed|].
      rewrite filter_app, (filter_singleton_False _ _ [])
        by (intros Hx; cbn in Hx; rewrite Hev in Hx; discriminate).
      by rewrite app_nil_r.
    + split; [by apply paired_done|].
      rewrite !filter_app, !length_app, IHn. f_equal.
      rewrite (filter_singleton_True _ _ []) by (cbn; done).
      rewrite filter_cons_False
        by (intros Hx; cbn in Hx; rewrite Hs in Hx; discriminate).
      by rewrite (filter_singleton_True _ _ []).
Qed.

(** ** The loader's log *)

(** Membership of an issue in one conditional entry of the log. *)
Ltac issue_in H :=
  lazymatch type of H with
  | _ ∈ (if ?c then _ else _) => destruct c eqn:?; issue_in H
  | _ ∈ [] => by apply elem_of_nil in H
  | _ ∈ [_] => apply list_elem_of_singleton in H; try discriminate H
  end.

Lemma log_loop_invalid_dest names seen ts t :
  InvalidDest t ∈ log_loop names seen ts ↔ t ∈ ts ∧ dest t ∉ names.
Proof.
  revert seen. induction ts as [|u ts IH]; intros seen; cbn.
  - rewrite !elem_of_nil. tauto.
  - rewrite !elem_of_app, IH, elem_of_cons. split.
    + intros [H|[H|[H|[H1 H2]]]]; [issue_in H|issue_in H| |by auto].
      issue_in H. injection H as ->. split; [by left|].
      by apply bool_decide_eq_false in Heqb.
    + intros [[->|Hin] Hd]; [|by auto].
      right. right. left. rewrite bool_decide_eq_false_2 by done. by left.
Qed.

Lemma log_loop_invalid_source names seen ts t :
  InvalidSource t ∈ log_loop names seen ts
  ↔ t ∈ ts ∧ source t ≠ WILDCARD ∧ source t ∉ names.
Proof.
  revert seen. induction ts as [|u ts IH]; intros seen; cbn.
  - rewrite !elem_of_nil. tauto.
  - rewrite !elem_of_app, IH, elem_of_cons. split.
    + intros [H|[H|[H|[H1 H2]]]]; [issue_in H| |issue_in H|by auto].
      destruct (_ && _) eqn:Hc; [|by apply elem_of_nil in H].
      apply list_elem_of_singleton in H. injection H as ->.
      apply andb_true_iff in Hc as [Hw Hn]. split; [by left|]. split.
      * apply negb_true_iff in Hw. by apply String.eqb_neq in Hw.
      * apply negb_true_iff in Hn. by apply bool_decide_eq_false in Hn.
    + intros [[->|Hin] [Hw Hn]]; [|by right; right; right].
      right. left. apply String.eqb_neq in Hw. rewrite Hw.
      rewrite bool_decide_eq_false_2 by done. by left.
Qed.

Lemma log_loop_duplicate names seen ts a b :
  DuplicateTransition a b ∈ log_loop names seen ts ↔
  ∃ pre t post, ts = pre ++ t :: post ∧ pair_of t = (a, b)
                ∧ ((a, b) ∈ seen ∨ (a, b) ∈ pair_of <$> pre).
Proof.
  revert seen. induction ts as [|u ts IH]; intros seen; cbn.
  - rewrite elem_of_nil. split; [done|].
    intros (pre & t & post & E & _). by destruct pre.
  - rewrite !elem_of_app, IH. split.
    + intros [H|[H|[H|H]]].
      * destruct (decide _) as [Hin|]; [|by apply elem_of_nil in H].
        apply list_elem_of_singleton in H as [= -> ->].
        exists [], u, ts. auto.
      * destruct (_ && _); [|by apply elem_of_nil in H].
        by apply list_elem_of_singleton in H.
      * destruct (bool_decide _); [by apply elem_of_nil in H|].
        by apply list_elem_of_singleton in H.
      * destruct H as (pre & t & post & -> & Hp & Hs).
        exists (u :: pre), t, post. split; [done|]. split; [done|].
        rewrite fmap_cons, elem_of_cons.
        destruct Hs as [[Hs|Hs%elem_of_singleton]%elem_of_union|Hs]; auto.
    + intros (pre & t & post & E & Hp & Hs). destruct pre as [|u' pre].
      * injection E as -> ->. destruct Hs as [Hs|Hs%elem_of_nil]; [|done].
        left. unfold pair_of in Hp. injection Hp as -> ->.
        rewrite decide_True by done. by left.
      * injection E as -> ->. right. right. right.
        exists pre, t, post. split; [done|]. split; [done|].
        rewrite fmap_cons, elem_of_cons in Hs. rewrite elem_of_union.
        destruct Hs as [Hs|[Hs|Hs]]; auto.
        left. right. by apply elem_of_singleton.
Qed.

(** X11. What the loader logs for a configuration, entry by entry: an
    unknown initial state when [initial] is not among the declared names;
    an invalid [dest] for exactly the transitions whose [dest] is not
    declared; an invalid source for exactly those whose source is neither
    the wildcard nor declared; and a duplicate for a [(source, trigger)]
    pair exactly when some transition repeats the pair of an earlier
    one. *)
Theorem loader_reports (initial : string) (states : list StateDef)
    (transitions : list Transition) :
  let log := async_setup_issues initial states transitions in
  let names := name <$> states in
  (∀ i, UnknownInitial i ∈ log ↔ i = initial ∧ initial ∉ names)
  ∧ (∀ t, InvalidDest t ∈ log ↔ t ∈ transitions ∧ dest t ∉ names)
  ∧ (∀ t, InvalidSource t ∈ log
          ↔ t ∈ transitions ∧ source t ≠ WILDCARD ∧ source t ∉ names)
  ∧ (∀ a b, DuplicateTransition a b ∈ log
            ↔ ∃ pre t post, transitions = pre ++ t :: post
                            ∧ source t = a ∧ trigger t = b
                            ∧ (a, b) ∈ pair_of <$> pre).
Proof.
  cbn zeta. unfold async_setup_issues, _log_transition_issues, _state_names.
  assert (∀ k, k ∈ (list_to_set (name <$> states) : gset string)
               ↔ k ∈ name <$> states) as Hn.
  { intros k. apply elem_of_list_to_set. }
  split; [|split; [|split]].
  - intros i. rewrite elem_of_app. split.
    + intros [H|H].
      * case_bool_decide as Hi; [by apply elem_of_nil in H|].
        apply list_elem_of_singleton in H as [= ->].
        split; [done|]. intros Hc. by apply Hi, Hn.
      * exfalso. revert H. generalize (∅ : gset (string * string)).
        induction transitions as [|u ts IH]; intros seen; cbn.
        -- by intros ?%elem_of_nil.
        -- rewrite !elem_of_app. intros [H|[H|[H|H]]]; [| | |by eapply IH].
           ++ destruct (decide _); [|by apply elem_of_nil in H].
              by apply list_elem_of_singleton in H.
           ++ destruct (_ && _); [|by apply elem_of_nil in H].
              by apply list_elem_of_singleton in H.
           ++ destruct (bool_decide _); [by apply elem_of_nil in H|].
              by apply list_elem_of_singleton in H.
    + intros [-> Hi]. left.
      rewrite bool_decide_eq_false_2; [by left|].
      intros Hc. by apply Hi, Hn.
  - intros t. rewrite elem_of_app, log_loop_invalid_dest. split.
    + intros [H|[Hin Hd]]; [issue_in H|].
      split; [done|]. intros Hc. by apply Hd, Hn.
    + intros [Hin Hd]. right. split; [done|]. intros Hc. by apply Hd, Hn.
  - intros t. rewrite elem_of_app, log_loop_invalid_source. split.
    + intros [H|(Hin & Hw & Hd)]; [issue_in H|].
      split; [done|]. split; [done|]. intros Hc. by apply Hd, Hn.
    + intros (Hin & Hw & Hd). right.
      split; [done|]. split; [done|]. intros Hc. by apply Hd, Hn.
  - intros a b. rewrite elem_of_app, log_loop_duplicate. split.
    + intros [H|(pre & t & post & E & [= Hs Ht] & [Hin|Hin])].
      * issue_in H.
      * by apply elem_of_empty in Hin.
      * by exists pre, t, post.
    + intros (pre & t & post & E & Hs & Ht & Hin). right.
      exists pre, t, post. split; [done|]. split; [|by right].
      unfold pair_of. by rewrite Hs, Ht.
Qed.

Example loader_reports_demo :
  async_setup_issues "idle" demo_states demo_transitions = []
  ∧ async_setup_issues "nowhere" demo_states
      [ {| trigger := "go"; source := "idle"; dest := "lost";
           guard_expr := None; timeout := None; actions := [] |};
        {| trigger := "go"; source := "idle"; dest := "done";
           guard_expr := None; timeout := None; actions := [] |};
        {| trigger := "go"; source := "ghost"; dest := "done";
           guard_expr := None; timeout := None; actions := [] |} ]
    = [ UnknownInitial "nowhere";
        InvalidDest {| trigger := "go"; source := "idle"; dest := "lost";
                       guard_expr := None; timeout := None; actions := [] |};
        DuplicateTransition "idle" "go";
        InvalidSource {| trigger := "go"; source := "ghost"; dest := "done";
                         guard_expr := None; timeout := None;
                         actions := [] |} ].
Proof. by vm_compute. Qed.

(** ** Shadowed transitions *)

Lemma matching_app l1 l2 state trig :
  matching (l1 ++ l2) state trig
  = match matching l1 state trig with
    | Some t => Some t
    | None => matching l2 state trig
    end.
Proof.
  induction l1 as [|t l1 IH]; cbn; [done|]. by destruct (_ && _).
Qed.

(** X12. A transition is dead when an earlier one has the same trigger
    and either the same source or the wildcard as source: removing the
    later one changes the resolution for no state and no trigger. This
    covers every transition the loader reports as duplicate, and the
    specific transitions declared after a wildcard one, which the loader
    does not report. *)
Theorem shadowed_transition_is_dead (pre mid post : list Transition)
    (t1 t2 : Transition) (state trig : string) :
  trigger t2 = trigger t1 →
  source t2 = source t1 ∨ source t1 = WILDCARD →
  matching (pre ++ t1 :: mid ++ t2 :: post) state trig
  = matching (pre ++ t1 :: mid ++ post) state trig.
Proof.
  intros Htr Hsrc.
  rewrite !(matching_app pre). destruct (matching pre state trig); [done|].
  cbn. destruct (_ && _) eqn:H1; [done|].
  rewrite !(matching_app mid). destruct (matching mid state trig); [done|].
  cbn. destruct (String.eqb (trigger t2) trig && _) eqn:H2; [|done].
  exfalso. apply matching_test in H2 as [H2 H3].
  assert (matches state trig t1) as Hm.
  { split; [congruence|]. destruct Hsrc as [E|E]; [by rewrite <- E|by right]. }
  apply matching_test in Hm. congruence.
Qed.

(** In the example the specific ["stop"] from ["done"] comes after the
    wildcard ["stop"]. *)
Lemma shadowed_transition_is_dead_witness :
  let wild := {| trigger := "stop"; source := WILDCARD; dest := "idle";
                 guard_expr := Some "{{ is_state('x', 'on') }}";
                 timeout := None; actions := [] |} in
  let specific := {| trigger := "stop"; source := "done"; dest := "running";
                     guard_expr := None; timeout := None; actions := [] |} in
  demo_transitions
  = take 2 demo_transitions ++ wild :: [] ++ specific :: drop 4 demo_transitions
  ∧ matching demo_transitions "done" "stop"
    = matching (take 2 demo_transitions ++ wild :: [] ++ drop 4 demo_transitions)
               "done" "stop".
Proof.
  cbn zeta. split; [reflexivity|].
  apply (shadowed_transition_is_dead (take 2 demo_transitions) []
           (drop 4 demo_transitions)).
  - reflexivity.
  - by right.
Defined.

(** ** The history as a path *)

Lemma history_end_snoc start h entry :
  history_end start (h ++ [entry])
  = match history_end start h with
    | Some at_ =>
        if String.eqb (h_from entry) at_ then Some (h_to entry) else None
    | None => None
    end.
Proof.
  revert start. induction h as [|x h IH]; intros start; cbn; [done|].
  destruct (String.eqb (h_from x) start); [apply IH|done].
Qed.

Lemma exec_history_end host o s start :
  unrecorded o = false →
  history_end start (_recent (self s)) = Some (_state (self s)) →
  history_end start (_recent (self (exec host o s)))
  = Some (_state (self (exec host o s))).
Proof.
  intros Ho H.
  destruct o as [trig tid|state| |cfg|eid last|h|]; cbn [exec]; try done.
  - destruct (matching (_transitions (self s)) (_state (self s)) trig)
      as [t|] eqn:Hm.
    + destruct (decide (_eval_guard host <$> guard_expr t = Some false))
        as [Hg|Hg].
      * by rewrite (async_trigger_guard_false _ _ _ _ _ Hm Hg).
      * rewrite (async_trigger_commit _ _ _ _ _ Hm Hg). cbn.
        by rewrite history_end_snoc, H, String.eqb_refl.
    + by rewrite (async_trigger_no_match _ _ _ _ Hm).
  - rewrite async_set_state_eq. destruct (declared _ state); [|done]. cbn.
    by rewrite history_end_snoc, H, String.eqb_refl.
  - rewrite async_reset_eq, async_set_state_eq. cbn [snd].
    destruct (declared _ _); [|done]. cbn.
    by rewrite history_end_snoc, H, String.eqb_refl.
  - by rewrite timer_elapses_self.
  - rewrite task_runs_eq. cbn [snd]. destruct (tasks (hass s)); [done|]. cbn.
    by rewrite history_end_snoc, H, String.eqb_refl.
Qed.

(** X13. As long as the entity is neither reloaded nor restored, its
    history is a path: the first entry leaves from the initial state,
    every entry leaves from where the previous one arrived, and the last
    one arrives at the current state; this holds for late timeout tasks
    too, which record the state they really left. *)
Theorem history_is_a_path (host : Host) (ops : list Op) (oid initial : string)
    (states : list StateDef) (transitions : list Transition) :
  Forall (λ o, unrecorded o = false) ops →
  let s := run host ops (boot (__init__ oid initial states transitions)) in
  history_end initial (_recent (self s)) = Some (_state (self s)).
Proof.
  intros Hops. cbn zeta.
  induction ops as [|o ops IH] using rev_ind; [reflexivity|].
  apply Forall_app in Hops as [Hops Ho]. inversion Ho as [|? ? Ho' _].
  rewrite run_snoc. apply exec_history_end; [done|]. by apply IH.
Qed.

Lemma history_is_a_path_witness :
  let ops := [Trigger "start" "u1"; Trigger "go" "u2"; TimerElapses 0;
              SetState "running"; TaskRuns; Reset; Trigger "nope" "u3"] in
  let s := run demo_host ops demo in
  history_end "idle" (_recent (self s)) = Some (_state (self s))
  ∧ length (_recent (self s)) = 5.
Proof.
  cbn zeta. split; [|reflexivity].
  apply (history_is_a_path demo_host _ "washer" "idle" demo_states
           demo_transitions).
  repeat constructor.
Defined.

(** A reload that removes the current state breaks the path: the entity
    is moved without a history entry. *)
Example reload_breaks_the_path :
  let cfg := {| cfg_initial := None;
                cfg_states := Some [ {| name := "idle"; description := "" |} ];
                cfg_transitions := None |} in
  let s := run demo_host [Trigger "start" "u1"; ApplyConfig cfg] demo in
  _state (self s) = "idle"
  ∧ history_end "idle" (_recent (self s)) = Some "running".
Proof. by vm_compute. Qed.

(** ** Guards: padding and letter case *)

Lemma string_app_assoc a b c : (a +:+ b) +:+ c = a +:+ (b +:+ c).
Proof.
  induction a as [|x a IH]; [done|]. by rewrite !string_app_cons, IH.
Qed.

Lemma rev_app_app a b : String.rev_app a b = String.rev_app a "" +:+ b.
Proof.
  revert b. induction a as [|x a IH]; intros b; cbn; [done|].
  rewrite (IH (String x b)), (IH (String x "")), string_app_assoc. done.
Qed.

Lemma rev_app_distr a b :
  String.rev (a +:+ b) = String.rev b +:+ String.rev a.
Proof.
  unfold String.rev.
  assert (∀ acc, String.rev_app (a +:+ b) acc
                 = String.rev_app b (String.rev_app a acc)) as H.
  { induction a as [|x a IH]; intros acc; [done|].
    rewrite string_app_cons. cbn. apply IH. }
  by rewrite H, rev_app_app.
Qed.

Lemma blank_rev s : blank (String.rev s) = blank s.
Proof.
  unfold String.rev.
  assert (∀ acc, blank (String.rev_app s acc) = blank s && blank acc) as H.
  { induction s as [|x s IH]; intros acc; cbn; [done|].
    rewrite IH. cbn. by destruct (isspace x), (blank s), (blank acc). }
  rewrite H. cbn. by rewrite andb_true_r.
Qed.

Lemma lstrip_blank s : blank s = true → lstrip s = "".
Proof.
  induction s as [|x s IH]; cbn; [done|].
  destruct (isspace x); [apply IH|done].
Qed.

Lemma lstrip_app a b :
  lstrip (a +:+ b) = if blank a then lstrip b else lstrip a +:+ b.
Proof.
  induction a as [|x a IH]; [done|].
  rewrite string_app_cons. cbn. by destruct (isspace x).
Qed.

Lemma rstrip_app_blank a post :
  blank post = true → rstrip (a +:+ post) = rstrip a.
Proof.
  intros H. unfold rstrip.
  by rewrite rev_app_distr, lstrip_app, blank_rev, H.
Qed.

Lemma strip_padding pre s post :
  blank pre = true → blank post = true →
  strip (pre +:+ s +:+ post) = strip s.
Proof.
  intros Hpre Hpost. unfold strip.
  rewrite lstrip_app, Hpre, lstrip_app. destruct (blank s) eqn:Hs.
  - by rewrite (lstrip_blank post), (lstrip_blank s).
  - by apply rstrip_app_blank.
Qed.

Lemma isspace_lower c : isspace (lower_ascii c) = isspace c.
Proof. by destruct c as [[] [] [] [] [] [] [] []]. Qed.

Lemma lstrip_lower s : lstrip (lower s) = lower (lstrip s).
Proof.
  induction s as [|x s IH]; cbn; [done|].
  rewrite isspace_lower. by destruct (isspace x).
Qed.

Lemma lower_rev s : lower (String.rev s) = String.rev (lower s).
Proof.
  unfold String.rev.
  assert (∀ acc, lower (String.rev_app s acc)
                 = String.rev_app (lower s) (lower acc)) as H.
  { induction s as [|x s IH]; intros acc; cbn; [done|]. by rewrite IH. }
  by rewrite H.
Qed.

Lemma strip_lower s : strip (lower s) = lower (strip s).
Proof.
  unfold strip, rstrip.
  by rewrite lstrip_lower, <- lower_rev, lstrip_lower, lower_rev.
Qed.

(** X14. The verdict of a guard ignores whitespace around the rendered
    text and the case of its letters: two renderings that differ only in
    leading and trailing whitespace and in letter case give the same
    verdict. *)
Theorem guard_ignores_padding_and_case (host host' : Host)
    (expr expr' pre post rendered rendered' : string) :
  async_render host expr = Rendered rendered →
  async_render host' expr' = Rendered rendered' →
  blank pre = true →
  blank post = true →
  lower rendered' = lower (pre +:+ rendered +:+ post) →
  _eval_guard host' expr' = _eval_guard host expr.
Proof.
  intros Hr Hr' Hpre Hpost Hl. unfold _eval_guard. rewrite Hr, Hr'. cbn zeta.
  by rewrite <- (strip_lower rendered'), Hl, strip_lower, strip_padding.
Qed.

Lemma guard_ignores_padding_and_case_witness :
  _eval_guard demo_host "{{ is_state('x', 'on') }}"
  = _eval_guard echo_host "on"
  ∧ _eval_guard echo_host "on" = true.
Proof.
  split; [|reflexivity].
  apply (guard_ignores_padding_and_case echo_host demo_host
           "on" "{{ is_state('x', 'on') }}" " " " " "on" " On ");
    reflexivity.
Defined.

(** ** The bus is write-only *)

Lemma timer_elapses_eq h s :
  timer_elapses h s =
    (tt,
     match filter (λ t, handle t = h) (timers (hass s)) with
     | t :: _ =>
         {| self := self s;
            hass := with_tasks (tasks (hass s) ++ [target t])
                      (with_timers
                         (filter (λ t, handle t ≠ h) (timers (hass s)))
                         (next_handle (hass s)) (hass s)) |}
     | [] => s
     end).
Proof.
  unfold timer_elapses.
  destruct (filter _ (timers (hass s))); [done|]. by run_m.
Qed.

(** An operation reads nothing from the bus: on two systems with the same
    engine it leaves the same engine and appends the same events. *)
Lemma exec_same_engine host o s1 s2 :
  same_engine s1 s2 →
  same_engine (exec host o s1) (exec host o s2)
  ∧ ∃ new, bus (hass (exec host o s1)) = bus (hass s1) ++ new
           ∧ bus (hass (exec host o s2)) = bus (hass s2) ++ new.
Proof.
  intros (Hs & Ht & Hn & Hk & Hw). unfold same_engine.
  destruct o as [trig tid|state| |cfg|eid last|h|]; cbn [exec].
  - destruct (matching (_transitions (self s1)) (_state (self s1)) trig)
      as [t|] eqn:Hm.
    + destruct (decide (_eval_guard host <$> guard_expr t = Some false))
        as [Hg|Hg].
      * rewrite (async_trigger_guard_false _ _ _ s1 _ Hm Hg).
        rewrite Hs in Hm.
        rewrite (async_trigger_guard_false _ _ _ s2 _ Hm Hg). cbn.
        rewrite Hs. split; [done|]. by eexists.
      * rewrite (async_trigger_commit _ _ _ s1 _ Hm Hg).
        rewrite Hs in Hm.
        rewrite (async_trigger_commit _ _ _ s2 _ Hm Hg). cbn.
        rewrite Hs, Ht, Hn, Hk. split; [done|]. by eexists.
    + rewrite (async_trigger_no_match _ _ _ s1 Hm). rewrite Hs in Hm.
      rewrite (async_trigger_no_match _ _ _ s2 Hm). cbn.
      rewrite Hs. split; [done|]. by eexists.
  - rewrite !async_set_state_eq, Hs. destruct (declared _ state); cbn.
    + rewrite Hs, Ht, Hn, Hk. split; [done|].
      exists []. by rewrite !app_nil_r.
    + split; [done|]. exists []. by rewrite !app_nil_r.
  - rewrite !async_reset_eq, !async_set_state_eq, Hs. cbn [snd].
    destruct (declared _ _); cbn.
    + rewrite Hs, Ht, Hn, Hk. split; [done|].
      exists []. by rewrite !app_nil_r.
    + split; [done|]. exists []. by rewrite !app_nil_r.
  - rewrite !async_apply_config_eq. cbn. rewrite Hs, Ht, Hn, Hk.
    split; [done|]. exists []. by rewrite !app_nil_r.
  - run_m. rewrite !async_added_to_hass_eq. cbn. rewrite Hs, Ht, Hn, Hk.
    split; [done|]. exists []. by rewrite !app_nil_r.
  - rewrite !timer_elapses_eq. cbn [snd]. rewrite Ht.
    destruct (filter _ (timers (hass s2))); cbn.
    + split; [done|]. exists []. by rewrite !app_nil_r.
    + rewrite Hs, Hn, Hk, Hw. split; [done|].
      exists []. by rewrite !app_nil_r.
  - rewrite !task_runs_eq. cbn [snd]. rewrite Hk.
    destruct (tasks (hass s2)) eqn:Ek; cbn.
    + split; [by rewrite Hk|]. exists []. by rewrite !app_nil_r.
    + rewrite Hs, Ht, Hn. split; [done|]. exists []. by rewrite !app_nil_r.
Qed.

Lemma run_same_engine host ops s1 s2 :
  same_engine s1 s2 →
  same_engine (run host ops s1) (run host ops s2)
  ∧ ∃ new, bus (hass (run host ops s1)) = bus (hass s1) ++ new
           ∧ bus (hass (run host ops s2)) = bus (hass s2) ++ new.
Proof.
  intros H. induction ops as [|o ops IH] using rev_ind.
  - split; [done|]. exists []. by rewrite !app_nil_r.
  - destruct IH as [IH (new & E1 & E2)]. rewrite !run_snoc.
    destruct (exec_same_engine host o _ _ IH) as [H' (new' & E1' & E2')].
    split; [done|]. exists (new ++ new').
    by rewrite E1', E2', E1, E2, !app_assoc.
Qed.

(** X15. A rejected trigger leaves no trace but its event: whatever
    operations follow, the entity, its timers and the written state come
    out exactly as if the rejected [trigger] had never been called, and
    the bus differs by the one [transition_failed] event only. *)
Theorem rejected_trigger_leaves_no_trace (host : Host) (trig tid : string)
    (ops : list Op) (s : Sys) :
  (async_trigger host trig tid s).1 = false →
  let s1 := run host ops s in
  let s2 := run host (Trigger trig tid :: ops) s in
  same_engine s2 s1
  ∧ ∃ ev later,
      event_type ev = EVENT_TRANSITION_FAILED
      ∧ bus (hass s1) = bus (hass s) ++ later
      ∧ bus (hass s2) = bus (hass s) ++ ev :: later.
Proof.
  intros Hf. cbn zeta.
  change (run host (Trigger trig tid :: ops) s)
    with (run host ops (async_trigger host trig tid s).2).
  assert (same_engine (async_trigger host trig tid s).2 s
          ∧ ∃ ev, event_type ev = EVENT_TRANSITION_FAILED
                  ∧ bus (hass (async_trigger host trig tid s).2)
                    = bus (hass s) ++ [ev]) as [Hsame (ev & Hev & Hbus)].
  { destruct (matching (_transitions (self s)) (_state (self s)) trig)
      as [t|] eqn:Hm.
    - destruct (decide (_eval_guard host <$> guard_expr t = Some false))
        as [Hg|Hg].
      + rewrite (async_trigger_guard_false _ _ _ _ _ Hm Hg).
        split; [done|]. eexists (failed_event _ _ _ _ _). by split.
      + by rewrite (async_trigger_commit _ _ _ _ _ Hm Hg) in Hf.
    - rewrite (async_trigger_no_match _ _ _ _ Hm).
      split; [done|]. eexists (failed_event _ _ _ _ _). by split. }
  destruct (run_same_engine host ops _ _ Hsame) as [H (later & E2 & E1)].
  split; [done|]. exists ev, later. split; [done|]. split; [done|].
  by rewrite E2, Hbus, <- app_assoc.
Qed.

Lemma rejected_trigger_leaves_no_trace_witness :
  let ops := [Trigger "start" "u1"; Trigger "go" "u2"; TimerElapses 0;
              TaskRuns] in
  let s1 := run demo_host ops demo in
  let s2 := run demo_host (Trigger "nope" "u0" :: ops) demo in
  (async_trigger demo_host "nope" "u0" demo).1 = false
  ∧ same_engine s2 s1
  ∧ ∃ ev later,
      event_type ev = EVENT_TRANSITION_FAILED
      ∧ bus (hass s1) = bus (hass demo) ++ later
      ∧ bus (hass s2) = bus (hass demo) ++ ev :: later.
Proof.
  cbn zeta. split; [reflexivity|].
  apply (rejected_trigger_leaves_no_trace demo_host "nope" "u0").
  reflexivity.
Defined.

(** ** One pending timeout *)

(** X16. While every timeout task runs as soon as its timer has elapsed,
    an entity has at most one timer registered, the one whose handle it
    stores; its target is a declared state; no task is waiting; and an
    entity that stores no handle has no timer registered at all, so
    nothing can fire after [set_state], [reset] or a reload. *)
Theorem single_pending_timeout (host : Host) (oid initial : string)
    (states : list StateDef) (transitions : list Transition) (ops : list Op) :
  prompt ops →
  let s := run host ops (boot (__init__ oid initial states transitions)) in
  tasks (hass s) = []
  ∧ length (timers (hass s)) ≤ 1
  ∧ (∀ tm, tm ∈ timers (hass s) →
           _timeout_unsub (self s) = Some (handle tm)
           ∧ target tm ∈ available_states (extra_state_attributes (self s)))
  ∧ (_timeout_unsub (self s) = None → timers (hass s) = []).
Proof.
  intros Hp. cbn zeta.
  pose proof (tidy_run host ops Hp _ (tidy_boot oid initial states transitions))
    as [Hl Hf Hk H1 Htm].
  split; [done|]. split; [done|]. split; [done|].
  intros Hu. destruct (timers _) as [|tm ts] eqn:E; [done|].
  destruct (Htm tm) as [Hs _]; [by left|]. congruence.
Qed.

Lemma single_pending_timeout_witness :
  let ops := [Trigger "start" "u1"; Trigger "go" "u2"; SetState "idle";
              Trigger "start" "u3"; Trigger "go" "u4"] in
  let s := run demo_host ops demo in
  prompt ops
  ∧ timers (hass s) = [{| handle := 1; delay := 5; target := "idle" |}]
  ∧ _timeout_unsub (self s) = Some 1
  ∧ tasks (hass s) = []
  ∧ length (timers (hass s)) ≤ 1.
Proof.
  cbn zeta.
  match goal with |- prompt ?ops ∧ _ => assert (prompt ops) as Hp end.
  { repeat constructor. }
  destruct (single_pending_timeout demo_host "washer" "idle" demo_states
              demo_transitions _ Hp) as (Hk & H1 & _).
  split; [exact Hp|]. split; [reflexivity|]. split; [reflexivity|].
  split; [exact Hk|exact H1].
Defined.

(** ** What the events of a call carry *)

(** X17. Every event fired by a call of [trigger] carries the call's
    transition id, its trigger and the state the entity was in before the
    call. A rejection names its reason, and a guard rejection carries
    [guard_value] ["False"]; [transition_started] and
    [transition_succeeded] name the new state, and [transition_started]
    carries [guard_value] ["True"] exactly when the transition is guarded
    and no [guard_value] otherwise. *)
Theorem trigger_event_payloads (host : Host) (trig tid : string) (s : Sys) :
  let r := async_trigger host trig tid s in
  ∃ new, bus (hass r.2) = bus (hass s) ++ new
    ∧ (∀ ev, ev ∈ new →
         dict_get "transition_id" (event_data ev) = Some (VStr tid)
         ∧ dict_get "trigger" (event_data ev) = Some (VStr trig)
         ∧ dict_get "from" (event_data ev) = Some (VStr (_state (self s))))
    ∧ match matching (_transitions (self s)) (_state (self s)) trig with
      | None =>
          ∃ ev, new = [ev]
            ∧ dict_get "reason" (event_data ev)
              = Some (VStr "no_matching_transition")
            ∧ dict_get "guard_value" (event_data ev) = None
      | Some t =>
          if r.1
          then ∃ ev1 ev2, new = [ev1; ev2]
                 ∧ dict_get "to" (event_data ev1) = Some (VStr (dest t))
                 ∧ dict_get "to" (event_data ev2) = Some (VStr (dest t))
                 ∧ dict_get "guard_value" (event_data ev1)
                   = (λ _, VStr "True") <$> guard_expr t
                 ∧ dict_get "actions_status" (event_data ev2)
                   = Some (VStatus (_run_actions host (actions t)))
          else ∃ ev, new = [ev]
                 ∧ dict_get "reason" (event_data ev) = Some (VStr "guard_false")
                 ∧ dict_get "guard_value" (event_data ev)
                   = Some (VStr "False")
                 ∧ dict_get "to" (event_data ev) = None
      end.
Proof.
  cbn zeta.
  destruct (matching (_transitions (self s)) (_state (self s)) trig)
    as [t|] eqn:Hm.
  - destruct (decide (_eval_guard host <$> guard_expr t = Some false))
      as [Hg|Hg].
    + rewrite (async_trigger_guard_false _ _ _ _ _ Hm Hg). cbn.
      eexists. split; [done|]. split.
      * intros ev ->%list_elem_of_singleton. done.
      * by eexists.
    + rewrite (async_trigger_commit _ _ _ _ _ Hm Hg). cbn.
      eexists. split; [done|]. split.
      * intros ev [->|[->|[]%elem_of_nil]%elem_of_cons]%elem_of_cons.
        -- unfold started_event, event_payload. cbn.
           by destruct (_eval_guard host <$> guard_expr t).
        -- done.
      * do 2 eexists. split; [done|].
        unfold started_event, event_payload. cbn.
        destruct (guard_expr t) as [g|]; cbn in *; [|done].
        destruct (_eval_guard host g); [done|]. by destruct Hg.
  - rewrite (async_trigger_no_match _ _ _ _ Hm). cbn.
    eexists. split; [done|]. split.
    + intros ev ->%list_elem_of_singleton. done.
    + by eexists.
Qed.

(** ** The configuration is read-only to the engine *)

Lemma exec_config host o s :
  reloads o = false →
  _initial (self (exec host o s)) = _initial (self s)
  ∧ _state_definitions (self (exec host o s)) = _state_definitions (self s)
  ∧ _transitions (self (exec host o s)) = _transitions (self s)
  ∧ _state_lookup (self (exec host o s)) = _state_lookup (self s)
  ∧ _object_id (self (exec host o s)) = _object_id (self s).
Proof.
  intros Ho. destruct o as [trig tid|state| |cfg|eid last|h|]; cbn [exec];
    try done.
  - destruct (matching (_transitions (self s)) (_state (self s)) trig)
      as [t|] eqn:Hm.
    + destruct (decide (_eval_guard host <$> guard_expr t = Some false))
        as [Hg|Hg].
      * by rewrite (async_trigger_guard_false _ _ _ _ _ Hm Hg).
      * by rewrite (async_trigger_commit _ _ _ _ _ Hm Hg).
    + by rewrite (async_trigger_no_match _ _ _ _ Hm).
  - rewrite async_set_state_eq. by destruct (declared _ state).
  - rewrite async_reset_eq, async_set_state_eq. by destruct (declared _ _).
  - run_m. by rewrite async_added_to_hass_eq.
  - by rewrite timer_elapses_self.
  - rewrite task_runs_eq. cbn [snd]. by destruct (tasks (hass s)).
Qed.

(** X18. Only a reload changes the configuration: after any operations
    other than [apply_config], late timeout tasks included, the initial
    state, the state definitions with their lookup table, the transition
    list and the object id are those the entity was constructed with. *)
Theorem configuration_is_read_only (host : Host) (ops : list Op)
    (oid initial : string) (states : list StateDef)
    (transitions : list Transition) :
  Forall (λ o, reloads o = false) ops →
  let e := self (run host ops (boot (__init__ oid initial states transitions))) in
  _initial e = initial
  ∧ _state_definitions e = states
  ∧ _transitions e = transitions
  ∧ _state_lookup e = state_lookup_of states
  ∧ _object_id e = oid
  ∧ available_states (extra_state_attributes e) = name <$> states
  ∧ available_transitions (extra_state_attributes e) = transitions.
Proof.
  intros Hops. cbn zeta.
  assert (∀ e, e = self (run host ops
                          (boot (__init__ oid initial states transitions))) →
               _initial e = initial ∧ _state_definitions e = states
               ∧ _transitions e = transitions
               ∧ _state_lookup e = state_lookup_of states
               ∧ _object_id e = oid) as H.
  { induction ops as [|o ops IH] using rev_ind; intros e ->; [done|].
    apply Forall_app in Hops as [Hops Ho]. inversion Ho as [|? ? Ho' _].
    rewrite run_snoc.
    destruct (exec_config host o
                (run host ops (boot (__init__ oid initial states transitions)))
                Ho') as (-> & -> & -> & -> & ->).
    by apply IH. }
  destruct (H _ eq_refl) as (Hi & Hsd & Hts & Hl & Ho).
  cbn. by rewrite Hi, Hsd, Hts, Hl, Ho.
Qed.

Lemma configuration_is_read_only_witness :
  let ops := [Trigger "start" "u1"; Trigger "go" "u2"; TimerElapses 0;
              SetState "running"; TaskRuns; Reset;
              AddedToHass "input_fsm.washer" (Some "done")] in
  let e := self (run demo_host ops demo) in
  _initial e = "idle"
  ∧ _state_definitions e = demo_states
  ∧ _transitions e = demo_transitions
  ∧ _state_lookup e = state_lookup_of demo_states
  ∧ _object_id e = "washer"
  ∧ available_states (extra_state_attributes e) = name <$> demo_states
  ∧ available_transitions (extra_state_attributes e) = demo_transitions.
Proof.
  apply (configuration_is_read_only demo_host _ "washer" "idle" demo_states
           demo_transitions).
  repeat constructor.
Defined.
